(** * mltrace: the lineage store ([mltrace/db/store.py])

    A shallow embedding of [class Store]: the tables the SQLAlchemy session
    reads and writes are lists of rows in insertion order, every method is a
    computation in a small state-and-exception monad over that store, and the
    recursive walk [_traverse] carries an explicit recursion budget.

    The entity classes ([Component], [ComponentRun], [IOPointer], [Tag],
    [PointerTypeEnum]) are declared in [mltrace.db], which is not part of the
    source files at hand; the records below carry the attributes [store.py]
    reads and writes, and the helper methods of those classes that
    [store.py] calls are modelled from the specification, each one marked. *)

From Stdlib Require Import List String Ascii ZArith Lia Bool Arith.
From Stdlib Require Import Permutation Sorted Relations DecimalString DecimalPos.
Import ListNotations.
Local Open Scope string_scope.
Local Open Scope list_scope.

Set Implicit Arguments.

(* ================================================================== *)
(** ** Entities *)

(** Modelled from the spec: the declaration of [PointerTypeEnum] is in
    [mltrace.db]; the spec lists file-backed types, a database-table type and
    the sequence-generated endpoint type.  Only [ENDPOINT] is named by
    [store.py]. *)
Inductive PointerTypeEnum : Set :=
| FILE_BACKED
| DATABASE_TABLE
| ENDPOINT.

Definition PointerTypeEnum_eqb (a b : PointerTypeEnum) : bool :=
  match a, b with
  | FILE_BACKED, FILE_BACKED => true
  | DATABASE_TABLE, DATABASE_TABLE => true
  | ENDPOINT, ENDPOINT => true
  | _, _ => false
  end.

Record Tag : Set := mkTag { tag_name : string }.

Record IOPointer : Set := mkIOPointer {
  iop_name : string;
  pointer_type : PointerTypeEnum }.

Record Component : Set := mkComponent {
  comp_name : string;
  description : string;
  owner : string;
  comp_tags : list Tag }.

(** A run refers to the runs it depends on by their identity in the run
    table (the association table is keyed by pairs of run ids), so the
    dependency relation is a graph over the store and may contain cycles.
    [id] is [None] until the store assigns one at commit; timestamps are
    [None] until set. *)
Record ComponentRun : Set := mkComponentRun {
  id : option nat;
  component_name : string;
  start_timestamp : option Z;
  end_timestamp : option Z;
  inputs : list IOPointer;
  outputs : list IOPointer;
  dependencies : list nat }.

(** The tables of the session, rows in insertion order, and the sequence
    that numbers committed runs. *)
Record Store : Set := mkStore {
  components : list Component;
  tags : list Tag;
  io_pointers : list IOPointer;
  component_runs : list ComponentRun;
  next_run_id : nat }.

Definition empty_store : Store := mkStore [] [] [] [] 1.

(* ================================================================== *)
(** ** Exceptions, log records and the store monad *)

(** The fields [check_completeness] reports on. *)
Inductive RunField : Set :=
| F_start_timestamp
| F_end_timestamp
| F_outputs.

(** The strings the store passes to [raise]: the format string
    [Component with name ... not found.] and the message
    [check_completeness] builds. *)
Inductive Message : Set :=
| Msg_component_not_found (component_name : string)
| Msg_incomplete_run (missing : list RunField).

(** The exceptions the modelled methods can end with.  [raise(<str>)], which
    [store.py] writes in three places, does not raise the string: in Python 3
    the operand of [raise] must derive from [BaseException], so the statement
    raises a [TypeError] that carries the interpreter's fixed text and not
    the operand. *)
Inductive Exc : Set :=
| TypeError_exceptions_must_derive_from_BaseException
| AttributeError_NoneType (attribute : string)
| ValueError_invalid_literal_for_int (literal : string)
| StorageError_negative_limit.

(** [logging.info] calls, one constructor per format string, and the line
    [trace] prints. *)
Inductive LogRecord : Set :=
| Log_component_exists (name : string)
| Log_creating_component (name description owner : string) (tags : list string)
| Log_creating_tag (name : string)
| Log_creating_io_pointer (name : string)
| Log_committing_run (component_name : string)
| Stdout_printing_trace (output_id : string).

Record Outcome (A : Type) : Type := mkOutcome {
  result : Exc + A;
  store_after : Store;
  logged : list LogRecord }.

Definition M (A : Type) : Type := Store -> Outcome A.

Definition ret {A} (a : A) : M A := fun s => mkOutcome (inr a) s [].

Definition raise {A} (e : Exc) : M A := fun s => mkOutcome (inl e) s [].

Definition bind {A B} (m : M A) (k : A -> M B) : M B :=
  fun s =>
    let o := m s in
    match result o with
    | inl e => mkOutcome (inl e) (store_after o) (logged o)
    | inr a =>
        let o' := k a (store_after o) in
        mkOutcome (result o') (store_after o') (logged o ++ logged o')
    end.

Definition get_store : M Store := fun s => mkOutcome (inr s) s [].

Definition put_store (s' : Store) : M unit := fun _ => mkOutcome (inr tt) s' [].

Definition logging_info (r : LogRecord) : M unit :=
  fun s => mkOutcome (inr tt) s [r].

Notation "x <- m ;; k" := (bind m (fun x => k))
  (at level 61, m at next level, right associativity).
Notation "m ;;; k" := (bind m (fun _ => k))
  (at level 61, right associativity).

(** [raise(msg)] with [msg] a string: the string is not raised, and is not
    part of what is. *)
Definition raise_str {A} (msg : Message) : M A :=
  raise TypeError_exceptions_must_derive_from_BaseException.

Fixpoint mapM {A B} (f : A -> M B) (l : list A) : M (list B) :=
  match l with
  | [] => ret []
  | a :: l' => b <- f a ;; bs <- mapM f l' ;; ret (b :: bs)
  end.

(* ================================================================== *)
(** ** Python built-ins used by the store *)

Definition digit_of_ascii (c : ascii) : option Z :=
  let n := nat_of_ascii c in
  if (48 <=? n)%nat && (n <=? 57)%nat then Some (Z.of_nat (n - 48)) else None.

Fixpoint parse_digits (s : string) (acc : Z) : option Z :=
  match s with
  | EmptyString => Some acc
  | String c s' =>
      match digit_of_ascii c with
      | Some d => parse_digits s' (10 * acc + d)
      | None => None
      end
  end.

(** [int(s)] on a string.  The forms modelled are an optional sign followed
    by one or more ASCII digits; everything else is a [ValueError].  (Python
    additionally accepts surrounding whitespace, single underscores between
    digits and non-ASCII digits; no statement below is about such names.) *)
Definition py_int (s : string) : Exc + Z :=
  let bad := inl (ValueError_invalid_literal_for_int s) in
  match s with
  | EmptyString => bad
  | String c rest =>
      if Ascii.eqb c "-" then
        match rest with
        | EmptyString => bad
        | _ => match parse_digits rest 0 with Some v => inr (- v)%Z | None => bad end
        end
      else if Ascii.eqb c "+" then
        match rest with
        | EmptyString => bad
        | _ => match parse_digits rest 0 with Some v => inr v | None => bad end
        end
      else match parse_digits s 0 with Some v => inr v | None => bad end
  end.

(** [f"{i}"] for an integer [i]. *)
Definition py_str (i : Z) : string := NilZero.string_of_int (Z.to_int i).

(** [range(a, b)]. *)
Definition py_range (a b : Z) : list Z :=
  map (fun k => (a + Z.of_nat k)%Z) (seq 0 (Z.to_nat (b - a))).

(** [max(l, key=...)] on a non-empty list whose keys are already computed:
    the first element whose key is maximal. *)
Fixpoint max_by_key {A} (best : A * Z) (l : list (A * Z)) : A * Z :=
  match l with
  | [] => best
  | x :: l' => max_by_key (if (snd best <? snd x)%Z then x else best) l'
  end.

(** Python's [x in l] on strings. *)
Definition str_in (x : string) (l : list string) : bool :=
  existsb (String.eqb x) l.

(** A computation that can only fail, run inside the store monad. *)
Definition lift {A} (r : Exc + A) : M A :=
  match r with
  | inl e => raise e
  | inr a => ret a
  end.

(** The value of a parameter that has a default: [None] is a call that
    leaves the argument out. *)
Definition with_default {A} (default : A) (arg : option A) : A :=
  match arg with
  | Some a => a
  | None => default
  end.

(* ================================================================== *)
(** ** Session primitives

    One session, one connection: a row added to the session is what every
    later query of the same session sees (SQLAlchemy flushes before it
    queries), so [session.add] is modelled as the insertion and
    [session.commit] leaves the tables as they are.  What the session does
    with the objects that hang on an added object is decided by the mapping
    in [mltrace.db]; it is modelled from the specification, which keys tags
    and pointers by their name. *)

Definition session_commit : M unit := ret tt.

Definition has_tag_named (name : string) (l : list Tag) : bool :=
  existsb (fun t => String.eqb (tag_name t) name) l.

Definition has_pointer_named (name : string) (l : list IOPointer) : bool :=
  existsb (fun p => String.eqb (iop_name p) name) l.

(** Modelled from the spec: the tag table is declared in [mltrace.db]; a tag
    is keyed by its name and no two tags share one, so of the tag objects
    that reach the table those whose name no stored tag has are inserted,
    once per name, and the table keeps the rows it had. *)
Fixpoint store_tags_by_name (table objects : list Tag) : list Tag :=
  match objects with
  | [] => table
  | t :: objects' =>
      store_tags_by_name
        (if has_tag_named (tag_name t) table then table else table ++ [t]) objects'
  end.

(** Modelled from the spec: the pointer table is declared in [mltrace.db]; a
    pointer is keyed by its name, as a tag is. *)
Fixpoint store_pointers_by_name (table objects : list IOPointer) : list IOPointer :=
  match objects with
  | [] => table
  | p :: objects' =>
      store_pointers_by_name
        (if has_pointer_named (iop_name p) table then table else table ++ [p]) objects'
  end.

(** [session.add(component)]: the component row, and the tag objects that
    come with the component, which reach the tag table. *)
Definition session_add_component (component : Component) (transient_tags : list Tag)
  : M unit :=
  s <- get_store ;;
  put_store (mkStore (components s ++ [component])
                     (store_tags_by_name (tags s) transient_tags)
                     (io_pointers s)
                     (component_runs s)
                     (next_run_id s)).

Definition session_add_tag (tag : Tag) : M unit :=
  s <- get_store ;;
  put_store (mkStore (components s) (tags s ++ [tag]) (io_pointers s)
                     (component_runs s) (next_run_id s)).

Definition session_add_io_pointer (iop : IOPointer) : M unit :=
  s <- get_store ;;
  put_store (mkStore (components s) (tags s) (io_pointers s ++ [iop])
                     (component_runs s) (next_run_id s)).

(** A changed component object is written back to its row, the first one
    with its name (the row [_get_component] returned). *)
Fixpoint update_component (name : string) (c' : Component) (l : list Component)
  : list Component :=
  match l with
  | [] => []
  | c :: l' =>
      if String.eqb (comp_name c) name then c' :: l'
      else c :: update_component name c' l'
  end.

Definition session_update_component (name : string) (c' : Component) : M unit :=
  s <- get_store ;;
  put_store (mkStore (update_component name c' (components s))
                     (tags s) (io_pointers s) (component_runs s) (next_run_id s)).

Definition has_id (i : nat) (r : ComponentRun) : bool :=
  match id r with
  | Some j => Nat.eqb i j
  | None => false
  end.

(** [session.add(component_run)]: a run that has no identity yet is inserted
    under the next id of the sequence; a run that is already a row of the
    table has that row brought up to date.  The pointer objects of the run,
    inputs and outputs, come with it and reach the pointer table. *)
Definition session_add_component_run (component_run : ComponentRun) : M unit :=
  s <- get_store ;;
  let pointers :=
    store_pointers_by_name (io_pointers s)
                           (inputs component_run ++ outputs component_run) in
  match id component_run with
  | None =>
      let row := mkComponentRun (Some (next_run_id s))
                   (component_name component_run)
                   (start_timestamp component_run)
                   (end_timestamp component_run)
                   (inputs component_run)
                   (outputs component_run)
                   (dependencies component_run) in
      put_store (mkStore (components s) (tags s) pointers
                         (component_runs s ++ [row]) (S (next_run_id s)))
  | Some i =>
      put_store (mkStore (components s) (tags s) pointers
                         (map (fun r => if has_id i r then component_run else r)
                              (component_runs s))
                         (next_run_id s))
  end.

(** The run object behind an id of the association table. *)
Definition find_run (s : Store) (i : nat) : option ComponentRun :=
  find (has_id i) (component_runs s).

(** [node.dependencies]: the run objects the ORM loads for the ids the
    association table holds for [node]. *)
Definition load_dependencies (s : Store) (node : ComponentRun) : list ComponentRun :=
  flat_map (fun i => match find_run s i with Some r => [r] | None => [] end)
           (dependencies node).

(* ================================================================== *)
(** ** Helper methods of the entity classes *)

(** The dictionary [check_completeness] returns, with its two keys. *)
Record StatusDict : Set := mkStatusDict {
  success : bool;
  msg : Message }.

(** Modelled from the spec: [ComponentRun.check_completeness] is defined in
    [mltrace.db]; a run is complete when its start timestamp, its end
    timestamp and at least one output are set, and the message names the
    missing fields. *)
Definition check_completeness (r : ComponentRun) : StatusDict :=
  let missing :=
    (match start_timestamp r with None => [F_start_timestamp] | Some _ => [] end) ++
    (match end_timestamp r with None => [F_end_timestamp] | Some _ => [] end) ++
    (match outputs r with [] => [F_outputs] | _ :: _ => [] end) in
  mkStatusDict (match missing with [] => true | _ :: _ => false end)
               (Msg_incomplete_run missing).

(** The ids of the runs of a list that have one. *)
Definition run_ids (l : list ComponentRun) : list nat :=
  flat_map (fun d => match id d with Some i => [i] | None => [] end) l.

(** Modelled from the spec: [ComponentRun.set_upstream] is defined in
    [mltrace.db]; it makes the given runs the dependencies of the run, as a
    set. *)
Definition set_upstream (r : ComponentRun) (deps : list ComponentRun) : ComponentRun :=
  mkComponentRun (id r) (component_name r) (start_timestamp r) (end_timestamp r)
                 (inputs r) (outputs r)
                 (nodup Nat.eq_dec (run_ids deps)).

(** Modelled from the spec: the constructor of [Component] is defined in
    [mltrace.db]; a component has a name, a description, an owner and a set
    of tags. *)
Definition new_component (name description owner : string) (tags : list Tag)
  : Component :=
  mkComponent name description owner tags.

(** Modelled from the spec: [Component.add_tags] is defined in [mltrace.db];
    attaching a tag name a component already has does not create a
    duplicate. *)
Definition add_tags (c : Component) (ts : list Tag) : Component :=
  mkComponent (comp_name c) (description c) (owner c)
    (fold_left (fun acc t => if has_tag_named (tag_name t) acc then acc else acc ++ [t])
               ts (comp_tags c)).

(* ================================================================== *)
(** ** The methods of [Store] *)

Section StoreMethods.

(** The extension heuristic of [mltrace.db.utils], an external
    collaborator. *)
Variable _map_extension_to_enum : string -> PointerTypeEnum.

(** [query(Component).filter(Component.name == name).first()] *)
Definition _get_component (name : string) : M (option Component) :=
  s <- get_store ;;
  ret (find (fun c => String.eqb (comp_name c) name) (components s)).

Definition create_component (name description owner : string) (tags : list string)
  : M unit :=
  res <- _get_component name ;;
  match res with
  | Some _ =>
      logging_info (Log_component_exists name) ;;;
      ret tt
  | None =>
      logging_info (Log_creating_component name description owner tags) ;;;
      let tags := map mkTag tags in
      let component := new_component name description owner tags in
      session_add_component component tags ;;;
      session_commit
  end.

(** [query(Tag).filter(Tag.name == name).all()], then create or return
    [res[0]]. *)
Definition get_tag (name : string) : M Tag :=
  s <- get_store ;;
  let res := filter (fun t => String.eqb (tag_name t) name) (tags s) in
  match res with
  | [] =>
      logging_info (Log_creating_tag name) ;;;
      let tag := mkTag name in
      session_add_tag tag ;;;
      session_commit ;;;
      ret tag
  | res0 :: _ => ret res0
  end.

Definition add_tags_to_component (component_name : string) (tags : list string)
  : M unit :=
  component <- _get_component component_name ;;
  match component with
  | None => raise_str (Msg_component_not_found component_name)
  | Some component =>
      tag_objects <- mapM get_tag tags ;;
      let component := add_tags component tag_objects in
      session_update_component component_name component ;;;
      session_commit
  end.

(** Builds the object, nothing is sent to the session. *)
Definition initialize_empty_component_run (component_name : string) : ComponentRun :=
  mkComponentRun None component_name None None [] [] [].

Definition get_io_pointer (name : string) (pointer_type : option PointerTypeEnum)
  : M IOPointer :=
  s <- get_store ;;
  let res := filter (fun p => String.eqb (iop_name p) name) (io_pointers s) in
  match res with
  | [] =>
      logging_info (Log_creating_io_pointer name) ;;;
      let pointer_type :=
        match pointer_type with
        | None => _map_extension_to_enum name
        | Some t => t
        end in
      let iop := mkIOPointer name pointer_type in
      session_add_io_pointer iop ;;;
      session_commit ;;;
      ret iop
  | res0 :: _ => ret res0
  end.

(** [max(res, key=lambda x: int(x.name))]: the key of every element is
    computed, in order; the first failure is the failure of the call. *)
Definition max_by_int_name (res0 : IOPointer) (res' : list IOPointer) : M IOPointer :=
  k0 <- lift (py_int (iop_name res0)) ;;
  ks <- mapM (fun p => lift (py_int (iop_name p))) res' ;;
  ret (fst (max_by_key (res0, k0) (combine res' ks))).

(** [num_outputs] defaults to 1. *)
Definition create_output_ids (num_outputs : option Z) : M (list string) :=
  let num_outputs := with_default 1%Z num_outputs in
  s <- get_store ;;
  let res := filter (fun p => PointerTypeEnum_eqb (pointer_type p) ENDPOINT)
                    (io_pointers s) in
  start_index <-
    match res with
    | [] => ret 0%Z
    | res0 :: res' =>
        m <- max_by_int_name res0 res' ;;
        v <- lift (py_int (iop_name m)) ;;
        ret (v + 1)%Z
    end ;;
  ret (map py_str (py_range start_index (start_index + num_outputs))).

Definition commit_component_run (component_run : ComponentRun) : M unit :=
  let status_dict := check_completeness component_run in
  if negb (success status_dict) then raise_str (msg status_dict)
  else
    session_add_component_run component_run ;;;
    logging_info (Log_committing_run (component_name component_run)) ;;;
    session_commit.

End StoreMethods.

(* ================================================================== *)
(** ** Dependency resolution *)

(** [query(ComponentRun, ...).outerjoin(IOPointer, ComponentRun.outputs)]:
    one row per run and output of that run; a run without outputs keeps one
    row with no pointer. *)
Definition outerjoin_outputs (runs : list ComponentRun)
  : list (ComponentRun * option IOPointer) :=
  flat_map (fun cr =>
              match outputs cr with
              | [] => [(cr, None)]
              | ps => map (fun p => (cr, Some p)) ps
              end) runs.

(** [IOPointer.name.in_(input_ids)]; a row without pointer does not pass. *)
Definition name_in_ (input_ids : list string) (row : ComponentRun * option IOPointer)
  : bool :=
  match snd row with
  | Some p => str_in (iop_name p) input_ids
  | None => false
  end.

Definition opt_max (a b : option Z) : option Z :=
  match a, b with
  | Some x, Some y => Some (Z.max x y)
  | Some x, None => Some x
  | None, _ => b
  end.

(** [func.max(ComponentRun.start_timestamp).over(partition_by=
    ComponentRun.component_name)]: a window function.  It adds to every row
    the largest start timestamp among the rows of the same component; it
    does not remove rows. *)
Definition max_start_timestamp_over_component_name
  (rows : list (ComponentRun * option IOPointer)) (cr : ComponentRun) : option Z :=
  fold_left opt_max
    (map (fun row => start_timestamp (fst row))
         (filter (fun row => String.eqb (component_name (fst row)) (component_name cr))
                 rows))
    None.

(** The query of [set_dependencies_from_inputs], [.all()]: pairs of a run
    and the window value, in table order. *)
Definition matches_query (s : Store) (input_ids : list string)
  : list (ComponentRun * option Z) :=
  let rows := filter (name_in_ input_ids) (outerjoin_outputs (component_runs s)) in
  map (fun row => (fst row, max_start_timestamp_over_component_name rows (fst row))) rows.

(** The method changes the run object it is given; the changed object is the
    value of the computation. *)
Definition set_dependencies_from_inputs (component_run : ComponentRun) : M ComponentRun :=
  let input_ids := map iop_name (inputs component_run) in
  s <- get_store ;;
  let matches := matches_query s input_ids in
  let matches := map fst matches in
  match matches with
  | [] => ret component_run
  | _ :: _ => ret (set_upstream component_run matches)
  end.

(* ================================================================== *)
(** ** Trace *)

(** [_traverse]: [node_list] is the list the calls share, threaded through;
    [fuel] bounds the depth of the recursion, and [None] is a walk that needs
    more than [fuel] nested calls. *)
Fixpoint _traverse (fuel : nat) (s : Store) (node : ComponentRun) (depth : nat)
  (node_list : list (nat * ComponentRun)) : option (list (nat * ComponentRun)) :=
  match fuel with
  | O => None
  | S fuel' =>
      let node_list := node_list ++ [(depth, node)] in
      match load_dependencies s node with
      | [] => Some node_list
      | neighbors =>
          fold_left (fun acc neighbor =>
                       match acc with
                       | None => None
                       | Some node_list => _traverse fuel' s neighbor (depth + 1) node_list
                       end)
                    neighbors (Some node_list)
      end
  end.

(** [query(ComponentRun).options(joinedload('outputs'))
      .filter(IOPointer.name == output_id).first()].
    [joinedload] joins the outputs under an alias of its own, for loading
    only; the filter names the pointer table itself, which the query does not
    join to the runs, so the rows are the pairs of a run and a pointer with
    that name, whatever run it is, and [first()] is the run of the first
    pair, or [None]. *)
Definition trace_query (s : Store) (output_id : string) : option ComponentRun :=
  hd_error
    (map fst
       (filter (fun row => String.eqb (iop_name (snd row)) output_id)
               (list_prod (component_runs s) (io_pointers s)))).

(** [trace]: with [None] for [component_run_object], [_traverse] appends
    [(1, None)] to its list and then reads [None.dependencies], which raises
    [AttributeError]. *)
Definition trace (fuel : nat) (output_id : string) (s : Store)
  : option (Outcome (list (nat * ComponentRun))) :=
  let component_run_object := trace_query s output_id in
  let printed := [Stdout_printing_trace output_id] in
  match component_run_object with
  | None => Some (mkOutcome (inl (AttributeError_NoneType "dependencies")) s printed)
  | Some root =>
      match _traverse fuel s root 1 [] with
      | None => None
      | Some node_list => Some (mkOutcome (inr node_list) s printed)
      end
  end.

(* ================================================================== *)
(** ** History *)

(** [a <= b] on timestamps of rows, a missing one being the largest (the
    order PostgreSQL gives to [NULL]). *)
Definition ts_leb (a b : option Z) : bool :=
  match a, b with
  | _, None => true
  | None, Some _ => false
  | Some x, Some y => (x <=? y)%Z
  end.

Fixpoint insert_desc (r : ComponentRun) (l : list ComponentRun) : list ComponentRun :=
  match l with
  | [] => [r]
  | x :: l' =>
      if ts_leb (start_timestamp x) (start_timestamp r) then r :: x :: l'
      else x :: insert_desc r l'
  end.

(** [order_by(ComponentRun.start_timestamp.desc())]; rows with equal
    timestamps keep their table order. *)
Definition order_by_start_timestamp_desc (l : list ComponentRun) : list ComponentRun :=
  fold_right insert_desc [] l.

(** [limit] defaults to 10; [limit(None)] puts no bound, and the database
    refuses a negative bound. *)
Definition get_history (component_name' : string) (limit : option (option Z))
  : M (list ComponentRun) :=
  let limit := with_default (Some 10%Z) limit in
  s <- get_store ;;
  let history :=
    order_by_start_timestamp_desc
      (filter (fun r => String.eqb (component_name r) component_name')
              (component_runs s)) in
  match limit with
  | None => ret history
  | Some n =>
      if (n <? 0)%Z then raise StorageError_negative_limit
      else ret (firstn (Z.to_nat n) history)
  end.

(* ================================================================== *)
(** ** Scenarios *)

(** A stand-in for the extension heuristic; the scenarios never depend on
    the type it picks. *)
Definition by_extension : string -> PointerTypeEnum := fun _ => FILE_BACKED.

(** A run as the instrumentation fills it before the store sees it. *)
Definition new_run (name : string) (t_start t_end : Z) (ins outs : list IOPointer)
  : ComponentRun :=
  mkComponentRun None name (Some t_start) (Some t_end) ins outs [].

Definition resolve_and_commit (r : ComponentRun) : M unit :=
  r' <- set_dependencies_from_inputs r ;;
  commit_component_run r'.

(** The history of [_set_up_computation] in [test_store.py]: cr1 and cr2
    both produce iop_1 (cr2 later), cr3 consumes iop_1 and produces iop_2 and
    iop_3, cr4 consumes iop_3 and produces iop_4. *)
Definition _set_up_computation : M unit :=
  create_component "test_component" "test_description" "shreya" [] ;;;
  iop_1 <- get_io_pointer by_extension "iop_1" None ;;
  iop_2 <- get_io_pointer by_extension "iop_2" None ;;
  iop_3 <- get_io_pointer by_extension "iop_3" None ;;
  iop_4 <- get_io_pointer by_extension "iop_4" None ;;
  resolve_and_commit (new_run "test_component" 10 11 [] [iop_1]) ;;;
  resolve_and_commit (new_run "test_component" 20 21 [] [iop_1]) ;;;
  resolve_and_commit (new_run "test_component" 30 31 [iop_1] [iop_2; iop_3]) ;;;
  resolve_and_commit (new_run "test_component" 40 41 [iop_3] [iop_4]).

Definition computation_store : Store := store_after (_set_up_computation empty_store).

(* ================================================================== *)
(** ** Notions the statements use *)

(** How many component rows carry a name. *)
Definition count_named (name : string) (l : list Component) : nat :=
  List.length (filter (fun c => String.eqb (comp_name c) name) l).

(** A computation that leaves every store as it found it and logs nothing. *)
Definition reads_only {A} (m : M A) : Prop :=
  forall s, store_after (m s) = s /\ logged (m s) = [].

(** A decimal numeral: one or more ASCII digits. *)
Fixpoint all_digits (s : string) : bool :=
  match s with
  | EmptyString => true
  | String c s' =>
      match digit_of_ascii c with
      | Some _ => all_digits s'
      | None => false
      end
  end.

Definition is_decimal_numeral (s : string) : bool :=
  match s with
  | EmptyString => false
  | String _ _ => all_digits s
  end.

(** The number [int] reads off a pointer's name (0 where it reads none). *)
Definition int_name (p : IOPointer) : Z :=
  match py_int (iop_name p) with
  | inr v => v
  | inl _ => 0%Z
  end.

(** The filter of [create_output_ids]. *)
Definition is_endpoint (p : IOPointer) : bool :=
  PointerTypeEnum_eqb (pointer_type p) ENDPOINT.

(** Endpoint pointers named "0" to "4", created through the store. *)
Definition endpoints_0_to_4 : Store :=
  store_after
    (mapM (fun name => get_io_pointer by_extension name (Some ENDPOINT))
          ["0"; "1"; "2"; "3"; "4"] empty_store).

(** [b] does not start after [a]: the order of a descending history. *)
Definition starts_no_later (a b : ComponentRun) : Prop :=
  ts_leb (start_timestamp b) (start_timestamp a) = true.

(** Eleven committed runs of one component. *)
Definition eleven_runs : Store :=
  store_after
    ((out <- get_io_pointer by_extension "out.csv" None ;;
      mapM (fun t => commit_component_run
                       (new_run "etl" (Z.of_nat t) (Z.of_nat t + 1) [] [out]))
           (seq 1 11)) empty_store).

(** [b] is one of the runs [a.dependencies] loads. *)
Definition dep_edge (s : Store) (a b : ComponentRun) : Prop :=
  In b (load_dependencies s a).

(** No run reaches itself along one or more dependency edges. *)
Definition acyclic (s : Store) : Prop :=
  forall r, ~ clos_trans ComponentRun (dep_edge s) r r.

(** Some run on a cycle can be reached from [start] (which may be that run
    itself). *)
Definition cycle_reachable (s : Store) (start : ComponentRun) : Prop :=
  exists r, clos_refl_trans ComponentRun (dep_edge s) start r /\
            clos_trans ComponentRun (dep_edge s) r r.

(** A path of dependency edges leaving [a]: the runs after [a], in order. *)
Inductive chain (s : Store) : ComponentRun -> list ComponentRun -> Prop :=
| chain_stop : forall a, chain s a []
| chain_step : forall a b l, dep_edge s a b -> chain s b l -> chain s a (b :: l).

(** The body of the loop over the neighbours. *)
Definition visit (fuel : nat) (s : Store) (depth : nat)
  (acc : option (list (nat * ComponentRun))) (neighbor : ComponentRun)
  : option (list (nat * ComponentRun)) :=
  match acc with
  | None => None
  | Some node_list => _traverse fuel s neighbor depth node_list
  end.

(** The results of a list of walks, if all of them returned. *)
Fixpoint all_some {A} (l : list (option A)) : option (list A) :=
  match l with
  | [] => Some []
  | None :: _ => None
  | Some a :: l' =>
      match all_some l' with
      | Some r => Some (a :: r)
      | None => None
      end
  end.

(** The pre-order listing the specification describes, written without the
    shared list: the node at its depth, then the listings of its
    dependencies, in order, one level deeper. *)
Fixpoint preorder (fuel : nat) (s : Store) (node : ComponentRun) (depth : nat)
  : option (list (nat * ComponentRun)) :=
  match fuel with
  | O => None
  | S fuel' =>
      match all_some (map (fun neighbor => preorder fuel' s neighbor (depth + 1))
                          (load_dependencies s node)) with
      | Some below => Some ((depth, node) :: List.concat below)
      | None => None
      end
  end.

(** The id of a run as a number (0 for a run without id). *)
Definition rank_by_id (r : ComponentRun) : nat :=
  match id r with
  | Some i => i
  | None => 0
  end.

(** The row with a given id (the empty run when there is none). *)
Definition row (s : Store) (i : nat) : ComponentRun :=
  match find_run s i with
  | Some r => r
  | None => initialize_empty_component_run ""
  end.

(** A malformed history: a run that lists its own output as input, resolved
    once more after it was committed, depends on itself. *)
Definition self_feeding_store : Store :=
  store_after
    ((x <- get_io_pointer by_extension "model.pkl" None ;;
      commit_component_run (new_run "train" 1 2 [x] [x]) ;;;
      s <- get_store ;;
      r <- set_dependencies_from_inputs (row s 1) ;;
      commit_component_run r) empty_store).

(** Two runs of one component produce X, the first starting at 1 and the
    second at 3; a later run of another component consumes X. *)
Definition recency_history : M ComponentRun :=
  x <- get_io_pointer by_extension "X" None ;;
  commit_component_run (new_run "producer" 1 2 [] [x]) ;;;
  commit_component_run (new_run "producer" 3 4 [] [x]) ;;;
  set_dependencies_from_inputs (new_run "consumer" 5 6 [x] []).

(** No two tags and no two pointers of the store share a name. *)
Definition unique_names (s : Store) : Prop :=
  NoDup (map tag_name (tags s)) /\ NoDup (map iop_name (io_pointers s)).

(** A computation that keeps a property of the store. *)
Definition preserves {A} (P : Store -> Prop) (m : M A) : Prop :=
  forall s, P s -> P (store_after (m s)).

(* ================================================================== *)
(** ** Queries over components *)

(** [query(Component).filter(Component.owner == owner)
      .options(joinedload('tags')).all()] *)
Definition get_components_with_owner (owner' : string) : M (list Component) :=
  s <- get_store ;;
  ret (filter (fun c => String.eqb (owner c) owner') (components s)).

(* ================================================================== *)
(** ** Notions the further statements use *)

(** [c] is [n] dependency edges away from [a]. *)
Inductive hops (s : Store) : nat -> ComponentRun -> ComponentRun -> Prop :=
| hops_here : forall a, hops s 0 a a
| hops_next : forall n a b c, dep_edge s a b -> hops s n b c -> hops s (S n) a c.

(** Every run of the table has an id below the next id of the sequence, and
    depends only on ids below its own. *)
Definition well_ranked (s : Store) : Prop :=
  forall r, In r (component_runs s) ->
            exists i, id r = Some i /\ (i < next_run_id s)%nat /\
                      forall d, In d (dependencies r) -> (d < i)%nat.

(** The same run with another start timestamp, and the same store with the
    start timestamps of its runs replaced. *)
Definition with_start (f : ComponentRun -> option Z) (r : ComponentRun) : ComponentRun :=
  mkComponentRun (id r) (component_name r) (f r) (end_timestamp r)
                 (inputs r) (outputs r) (dependencies r).

Definition retimed (f : ComponentRun -> option Z) (s : Store) : Store :=
  mkStore (components s) (tags s) (io_pointers s)
          (map (with_start f) (component_runs s)) (next_run_id s).

(** A store in which one endpoint pointer has a name that is no number. *)
Definition store_with_named_endpoint : Store :=
  store_after
    (mapM (fun name => get_io_pointer by_extension name (Some ENDPOINT))
          ["0"; "1"; "latest"; "2"] empty_store).

(** [int] accepts the name of the pointer. *)
Definition reads_as_int (p : IOPointer) : bool :=
  match py_int (iop_name p) with
  | inr _ => true
  | inl _ => false
  end.

(** A name with an ASCII letter in it: no number in base ten. *)
Definition is_ascii_letter (c : ascii) : bool :=
  let n := nat_of_ascii c in
  ((65 <=? n)%nat && (n <=? 90)%nat) || ((97 <=? n)%nat && (n <=? 122)%nat).

Fixpoint has_letter (s : string) : bool :=
  match s with
  | EmptyString => false
  | String c s' => is_ascii_letter c || has_letter s'
  end.

(** Registering identifiers as endpoint pointers, one [get_io_pointer] each. *)
Definition register_endpoints (ext : string -> PointerTypeEnum) (ids : list string)
  : M (list IOPointer) :=
  mapM (fun name => get_io_pointer ext name (Some ENDPOINT)) ids.

(* ================================================================== *)
(** * Properties *)

Unset Implicit Arguments.

(** Evaluates the left-hand side of an equation in the context. *)
Ltac compute_lhs H :=
  match type of H with
  | ?l = _ => let v := eval vm_compute in l in change l with v in H
  end.

(** ** Components: creating a name twice *)

Lemma find_none_filter {A} (f : A -> bool) (l : list A) :
  find f l = None -> filter f l = [].
Proof.
  induction l as [|a l IH]; simpl; [reflexivity|].
  destruct (f a); [discriminate | exact IH].
Qed.

Lemma find_some_filter {A} (f : A -> bool) (l : list A) (a : A) :
  find f l = Some a -> exists rest, filter f l = a :: rest.
Proof.
  induction l as [|b l IH]; simpl; [discriminate|].
  destruct (f b).
  - intros [= ->]. eexists; reflexivity.
  - exact IH.
Qed.

Lemma find_app_none {A} (f : A -> bool) (l l' : list A) :
  find f l = None -> find f (l ++ l') = find f l'.
Proof.
  induction l as [|a l IH]; simpl; [reflexivity|].
  destruct (f a); [discriminate | exact IH].
Qed.

(** What [create_component] does, by cases on the lookup. *)
Lemma create_component_existing s name d o ts c :
  find (fun c => String.eqb (comp_name c) name) (components s) = Some c ->
  create_component name d o ts s = mkOutcome (inr tt) s [Log_component_exists name].
Proof.
  intros E. unfold create_component, bind, _get_component, get_store, ret. simpl.
  rewrite E. reflexivity.
Qed.

Lemma create_component_fresh s name d o ts :
  find (fun c => String.eqb (comp_name c) name) (components s) = None ->
  create_component name d o ts s =
  mkOutcome (inr tt)
    (mkStore (components s ++ [mkComponent name d o (map mkTag ts)])
             (store_tags_by_name (tags s) (map mkTag ts)) (io_pointers s)
             (component_runs s) (next_run_id s))
    [Log_creating_component name d o ts].
Proof.
  intros E. unfold create_component, bind, _get_component, get_store, ret. simpl.
  rewrite E. reflexivity.
Qed.

Lemma create_component_then_found s name d o ts :
  exists c,
    find (fun c => String.eqb (comp_name c) name)
         (components (store_after (create_component name d o ts s))) = Some c.
Proof.
  destruct (find (fun c => String.eqb (comp_name c) name) (components s)) as [c|] eqn:E.
  - exists c. rewrite (create_component_existing _ _ _ _ _ _ E). exact E.
  - exists (mkComponent name d o (map mkTag ts)).
    rewrite (create_component_fresh _ _ _ _ _ E). simpl.
    rewrite (find_app_none _ _ _ E). simpl. rewrite String.eqb_refl. reflexivity.
Qed.

(** C7. [create_component] is idempotent: after a first call for [name], a
    second call for the same name, whatever description, owner and tags it
    passes, returns normally, logs that the component exists, and leaves the
    whole store -- the component's row with its description, owner and tags
    included -- as the first call left it; when names were unique before,
    exactly one component has that name afterwards. *)
Theorem create_component_idempotent :
  forall (s : Store) (name d o : string) (ts : list string)
         (d' o' : string) (ts' : list string),
    (count_named name (components s) <= 1)%nat ->
    let s1 := store_after (create_component name d o ts s) in
    let o2 := create_component name d' o' ts' s1 in
    store_after o2 = s1 /\
    result o2 = inr tt /\
    logged o2 = [Log_component_exists name] /\
    count_named name (components (store_after o2)) = 1%nat.
Proof.
  intros s name d o ts d' o' ts' Huniq s1 o2.
  destruct (create_component_then_found s name d o ts) as [c Hc].
  fold s1 in Hc.
  assert (Ho2 : o2 = mkOutcome (inr tt) s1 [Log_component_exists name])
    by (apply (create_component_existing _ _ _ _ _ _ Hc)).
  rewrite Ho2. simpl. repeat split.
  unfold s1, count_named in *.
  destruct (find (fun c => String.eqb (comp_name c) name) (components s)) as [c0|] eqn:E.
  - rewrite (create_component_existing _ _ _ _ _ _ E). simpl.
    destruct (find_some_filter _ _ _ E) as [rest Hr]. rewrite Hr in *. simpl in *. lia.
  - rewrite (create_component_fresh _ _ _ _ _ E). simpl.
    rewrite filter_app, (find_none_filter _ _ E). simpl.
    rewrite String.eqb_refl. reflexivity.
Qed.

Lemma create_component_idempotent_witness :
  (count_named "etl" (components empty_store) <= 1)%nat /\
  let s1 := store_after (create_component "etl" "first" "ann" ["nightly"] empty_store) in
  let o2 := create_component "etl" "second" "bob" ["weekly"] s1 in
  store_after o2 = s1 /\
  result o2 = inr tt /\
  logged o2 = [Log_component_exists "etl"] /\
  count_named "etl" (components (store_after o2)) = 1%nat.
Proof.
  split.
  - unfold count_named. simpl. lia.
  - apply (create_component_idempotent empty_store "etl" "first" "ann" ["nightly"]
             "second" "bob" ["weekly"]).
    unfold count_named. simpl. lia.
Defined.

(* ================================================================== *)
(** ** Computations that only read the store *)

Lemma reads_only_ret {A} (a : A) : reads_only (ret a).
Proof. intros s; split; reflexivity. Qed.

Lemma reads_only_raise {A} (e : Exc) : reads_only (@raise A e).
Proof. intros s; split; reflexivity. Qed.

Lemma reads_only_lift {A} (r : Exc + A) : reads_only (lift r).
Proof. destruct r; [apply reads_only_raise | apply reads_only_ret]. Qed.

Lemma reads_only_get_store : reads_only get_store.
Proof. intros s; split; reflexivity. Qed.

Lemma reads_only_bind {A B} (m : M A) (k : A -> M B) :
  reads_only m -> (forall a, reads_only (k a)) -> reads_only (bind m k).
Proof.
  intros Hm Hk s. unfold bind.
  destruct (Hm s) as [Hs Hl].
  destruct (result (m s)) as [e|a]; simpl.
  - split; assumption.
  - destruct (Hk a (store_after (m s))) as [Hs' Hl'].
    rewrite Hs', Hl', Hl, Hs. split; reflexivity.
Qed.

Lemma reads_only_mapM {A B} (f : A -> M B) (l : list A) :
  (forall a, reads_only (f a)) -> reads_only (mapM f l).
Proof.
  intros Hf. induction l as [|a l IH]; simpl.
  - apply reads_only_ret.
  - apply reads_only_bind; [apply Hf|]. intros b.
    apply reads_only_bind; [exact IH|]. intros bs. apply reads_only_ret.
Qed.

Lemma reads_only_max_by_int_name res0 res' : reads_only (max_by_int_name res0 res').
Proof.
  unfold max_by_int_name.
  apply reads_only_bind; [apply reads_only_lift|]. intros k0.
  apply reads_only_bind.
  - apply reads_only_mapM. intros p. apply reads_only_lift.
  - intros ks. apply reads_only_ret.
Qed.

Lemma reads_only_create_output_ids num_outputs :
  reads_only (create_output_ids num_outputs).
Proof.
  unfold create_output_ids.
  apply reads_only_bind; [apply reads_only_get_store|]. intros s.
  apply reads_only_bind.
  - destruct (filter _ (io_pointers s)) as [|res0 res'].
    + apply reads_only_ret.
    + apply reads_only_bind; [apply reads_only_max_by_int_name|]. intros m.
      apply reads_only_bind; [apply reads_only_lift|]. intros v.
      apply reads_only_ret.
  - intros start_index. apply reads_only_ret.
Qed.

(** C10. [create_output_ids] only reads the store: whatever the store and
    the count, the call persists nothing (the store after the call is the
    store before it, and nothing is logged), so a second call with the same
    count right after the first has the same outcome, the same list of
    identifiers included. *)
Theorem create_output_ids_only_reads :
  forall (s : Store) (num_outputs : option Z),
    let o1 := create_output_ids num_outputs s in
    store_after o1 = s /\
    logged o1 = [] /\
    create_output_ids num_outputs (store_after o1) = o1 /\
    result (create_output_ids num_outputs (store_after o1)) = result o1.
Proof.
  intros s num_outputs o1.
  destruct (reads_only_create_output_ids num_outputs s) as [Hs Hl].
  fold o1 in Hs, Hl. rewrite Hs.
  repeat split; assumption || reflexivity.
Qed.

(* ================================================================== *)
(** ** Output identifiers *)

Lemma PointerTypeEnum_eqb_eq a b : PointerTypeEnum_eqb a b = true <-> a = b.
Proof. destruct a, b; simpl; split; congruence. Qed.

Lemma digit_of_ascii_range c d : digit_of_ascii c = Some d -> (0 <= d <= 9)%Z.
Proof.
  unfold digit_of_ascii.
  destruct ((48 <=? nat_of_ascii c)%nat && (nat_of_ascii c <=? 57)%nat) eqn:E;
    [|discriminate].
  apply andb_prop in E. destruct E as [E1 E2].
  apply Nat.leb_le in E1. apply Nat.leb_le in E2.
  intros [= <-]. lia.
Qed.

Lemma parse_digits_all_digits s :
  all_digits s = true ->
  forall acc, (0 <= acc)%Z -> exists v, parse_digits s acc = Some v /\ (0 <= v)%Z.
Proof.
  induction s as [|c s IH]; intros Hd acc Hacc;
    cbn [all_digits] in Hd; cbn [parse_digits].
  - exists acc. split; [reflexivity | assumption].
  - destruct (digit_of_ascii c) as [d|] eqn:Ec; [|discriminate].
    apply digit_of_ascii_range in Ec.
    apply IH; [assumption | lia].
Qed.

Lemma py_int_decimal s :
  is_decimal_numeral s = true -> exists v, py_int s = inr v /\ (0 <= v)%Z.
Proof.
  destruct s as [|c rest]; [discriminate|].
  unfold is_decimal_numeral. intros Hd.
  assert (Hc : exists d, digit_of_ascii c = Some d).
  { simpl in Hd. destruct (digit_of_ascii c) as [d|]; [eauto | discriminate]. }
  destruct Hc as [d Hc].
  destruct (parse_digits_all_digits _ Hd 0%Z (Z.le_refl 0)) as [v [Hv Hpos]].
  exists v. split; [|assumption].
  unfold py_int.
  destruct (Ascii.eqb_spec c "-") as [->|_]; [vm_compute in Hc; discriminate|].
  destruct (Ascii.eqb_spec c "+") as [->|_]; [vm_compute in Hc; discriminate|].
  rewrite Hv. reflexivity.
Qed.

Lemma mapM_lift_py_int l s :
  Forall (fun p => py_int (iop_name p) = inr (int_name p)) l ->
  mapM (fun p => lift (py_int (iop_name p))) l s = mkOutcome (inr (map int_name l)) s [].
Proof.
  induction 1 as [|p l Hp _ IH]; simpl.
  - reflexivity.
  - unfold bind. rewrite Hp. simpl. rewrite IH. reflexivity.
Qed.

(** [max_by_key] over elements paired with their keys returns an element of
    the list whose key bounds every key. *)
Lemma max_by_key_spec {A} (key : A -> Z) (l : list A) (b : A) :
  let m := fst (max_by_key (b, key b) (combine l (map key l))) in
  In m (b :: l) /\ forall x, In x (b :: l) -> (key x <= key m)%Z.
Proof.
  revert b. induction l as [|a l IH]; intros b; simpl.
  - split; [left; reflexivity|]. intros x [<-|[]]. simpl. lia.
  - destruct (key b <? key a)%Z eqn:E.
    + apply Z.ltb_lt in E. destruct (IH a) as [Hin Hmax]. simpl in Hin. split.
      * destruct Hin as [Hin|Hin]; [right; left; exact Hin | right; right; exact Hin].
      * intros x [<-|[<-|Hx]].
        -- specialize (Hmax a (or_introl eq_refl)). lia.
        -- apply Hmax. left; reflexivity.
        -- apply Hmax. right; exact Hx.
    + apply Z.ltb_ge in E. destruct (IH b) as [Hin Hmax]. simpl in Hin. split.
      * destruct Hin as [Hin|Hin]; [left; exact Hin | right; right; exact Hin].
      * intros x [<-|[<-|Hx]].
        -- apply Hmax. left; reflexivity.
        -- specialize (Hmax b (or_introl eq_refl)). lia.
        -- apply Hmax. right; exact Hx.
Qed.

Lemma py_range_block (a b : Z) (n : nat) :
  (b - a)%Z = Z.of_nat n ->
  py_range a b = map (fun k => (a + Z.of_nat k)%Z) (seq 0 n).
Proof.
  intros H. unfold py_range. rewrite H, Nat2Z.id. reflexivity.
Qed.

(** The outcome of [create_output_ids] when [int] reads every endpoint name. *)
Lemma create_output_ids_outcome s (count : nat) :
  Forall (fun p => py_int (iop_name p) = inr (int_name p))
         (filter is_endpoint (io_pointers s)) ->
  create_output_ids (Some (Z.of_nat count)) s =
  let start :=
    match filter is_endpoint (io_pointers s) with
    | [] => 0%Z
    | res0 :: res' =>
        (int_name (fst (max_by_key (res0, int_name res0)
                                   (combine res' (map int_name res')))) + 1)%Z
    end in
  mkOutcome (inr (map (fun k => py_str (start + Z.of_nat k)) (seq 0 count))) s [].
Proof.
  intros Hall. unfold create_output_ids, with_default, bind, get_store. simpl.
  fold is_endpoint.
  change (filter (fun p => PointerTypeEnum_eqb (pointer_type p) ENDPOINT) (io_pointers s))
    with (filter is_endpoint (io_pointers s)).
  destruct (filter is_endpoint (io_pointers s)) as [|res0 res'] eqn:Eres.
  - simpl. rewrite (py_range_block 0 (Z.of_nat count) count) by lia.
    rewrite map_map. reflexivity.
  - inversion Hall as [|? ? H0 Hrest]; subst.
    unfold max_by_int_name, bind. rewrite H0. simpl.
    rewrite (mapM_lift_py_int _ _ Hrest). simpl.
    set (m := fst (max_by_key (res0, int_name res0) (combine res' (map int_name res')))).
    assert (Hm : py_int (iop_name m) = inr (int_name m)).
    { destruct (max_by_key_spec int_name res' res0) as [Hin _]. fold m in Hin.
      rewrite Forall_forall in Hall. apply Hall. exact Hin. }
    rewrite Hm. simpl.
    rewrite (py_range_block (int_name m + 1) (int_name m + 1 + Z.of_nat count) count)
      by lia.
    rewrite map_map. reflexivity.
Qed.

(** C6. When every endpoint-type pointer name is a decimal numeral,
    [create_output_ids(count)] returns the [count] decimal strings of the
    consecutive numbers [start], [start + 1], ..., where [start] is 0 if
    there is no endpoint-type pointer and otherwise one past the largest
    number an endpoint-type pointer is named with: some endpoint pointer is
    named [start - 1] and every endpoint pointer is named with a number
    below [start]. *)
Theorem create_output_ids_contiguous_block :
  forall (s : Store) (count : nat),
    (forall p, In p (io_pointers s) -> pointer_type p = ENDPOINT ->
               is_decimal_numeral (iop_name p) = true) ->
    exists start : Z,
      result (create_output_ids (Some (Z.of_nat count)) s) =
        inr (map (fun k => py_str (start + Z.of_nat k)) (seq 0 count)) /\
      ((forall p, In p (io_pointers s) -> pointer_type p <> ENDPOINT) -> start = 0%Z) /\
      (forall p, In p (io_pointers s) -> pointer_type p = ENDPOINT ->
                 exists v, py_int (iop_name p) = inr v /\ (0 <= v < start)%Z) /\
      ((exists p, In p (io_pointers s) /\ pointer_type p = ENDPOINT) ->
       exists p, In p (io_pointers s) /\ pointer_type p = ENDPOINT /\
                 py_int (iop_name p) = inr (start - 1)%Z).
Proof.
  intros s count Hdec.
  assert (Hval : forall p, In p (filter is_endpoint (io_pointers s)) ->
                           py_int (iop_name p) = inr (int_name p) /\ (0 <= int_name p)%Z).
  { intros p Hp. apply filter_In in Hp. destruct Hp as [Hp Ht].
    apply PointerTypeEnum_eqb_eq in Ht.
    destruct (py_int_decimal _ (Hdec p Hp Ht)) as [v [Hv Hpos]].
    unfold int_name. rewrite Hv. split; [reflexivity | assumption]. }
  assert (Hall : Forall (fun p => py_int (iop_name p) = inr (int_name p))
                        (filter is_endpoint (io_pointers s))).
  { apply Forall_forall. intros p Hp. apply (Hval p Hp). }
  rewrite (create_output_ids_outcome s count Hall). simpl.
  destruct (filter is_endpoint (io_pointers s)) as [|res0 res'] eqn:Eres.
  - exists 0%Z. split; [reflexivity|]. split; [reflexivity|]. split.
    + intros p Hp Ht. exfalso.
      assert (Hin : In p (filter is_endpoint (io_pointers s))).
      { apply filter_In. split; [assumption|]. apply PointerTypeEnum_eqb_eq. assumption. }
      rewrite Eres in Hin. exact Hin.
    + intros [p [Hp Ht]]. exfalso.
      assert (Hin : In p (filter is_endpoint (io_pointers s))).
      { apply filter_In. split; [assumption|]. apply PointerTypeEnum_eqb_eq. assumption. }
      rewrite Eres in Hin. exact Hin.
  - destruct (max_by_key_spec int_name res' res0) as [Hin Hmax].
    set (m := fst (max_by_key (res0, int_name res0) (combine res' (map int_name res'))))
      in *.
    assert (Hm : In m (io_pointers s) /\ pointer_type m = ENDPOINT).
    { rewrite <- Eres in Hin. apply filter_In in Hin. destruct Hin as [H1 H2].
      split; [assumption|]. apply PointerTypeEnum_eqb_eq. assumption. }
    exists (int_name m + 1)%Z. split; [reflexivity|]. split; [|split].
    + intros Hnone. exfalso. destruct Hm as [H1 H2]. exact (Hnone m H1 H2).
    + intros p Hp Ht.
      assert (Hp' : In p (res0 :: res')).
      { rewrite <- Eres. apply filter_In. split; [assumption|].
        apply PointerTypeEnum_eqb_eq. assumption. }
      exists (int_name p). destruct (Hval p Hp') as [Hv Hpos].
      split; [assumption|]. specialize (Hmax p Hp'). lia.
    + intros _. exists m. destruct Hm as [H1 H2]. split; [assumption|].
      split; [assumption|].
      replace (int_name m + 1 - 1)%Z with (int_name m) by lia.
      apply (Hval m Hin).
Qed.

Lemma create_output_ids_contiguous_block_witness :
  (forall p, In p (io_pointers endpoints_0_to_4) -> pointer_type p = ENDPOINT ->
             is_decimal_numeral (iop_name p) = true) /\
  result (create_output_ids (Some 3%Z) endpoints_0_to_4) = inr ["5"; "6"; "7"].
Proof.
  assert (H : forall p, In p (io_pointers endpoints_0_to_4) -> pointer_type p = ENDPOINT ->
                        is_decimal_numeral (iop_name p) = true).
  { intros p Hp _. simpl in Hp.
    destruct Hp as [<-|[<-|[<-|[<-|[<-|[]]]]]]; reflexivity. }
  split; [exact H|].
  destruct (create_output_ids_contiguous_block endpoints_0_to_4 3 H)
    as [start [Hres [_ [Hbelow Hmax]]]].
  assert (Hstart : start = 5%Z).
  { destruct (Hbelow (mkIOPointer "4" ENDPOINT)) as [v [Hv4 Hlt]];
      [simpl; auto 10 | reflexivity |].
    compute_lhs Hv4. injection Hv4 as <-.
    destruct Hmax as [p [Hp [_ Hv]]].
    { exists (mkIOPointer "4" ENDPOINT). split; [simpl; auto 10 | reflexivity]. }
    simpl in Hp.
    destruct Hp as [<-|[<-|[<-|[<-|[<-|[]]]]]];
      compute_lhs Hv; injection Hv as Hv; lia. }
  subst start. exact Hres.
Defined.

(** With no endpoint pointer the block starts at 0. *)
Example create_output_ids_empty_store :
  result (create_output_ids (Some 3%Z) empty_store) = inr ["0"; "1"; "2"].
Proof. reflexivity. Qed.

(* ================================================================== *)
(** ** History *)

Lemma ts_leb_total a b : ts_leb a b = false -> ts_leb b a = true.
Proof.
  destruct a as [x|], b as [y|]; simpl; try congruence.
  intros H. apply Z.leb_gt in H. apply Z.leb_le. lia.
Qed.

Lemma ts_leb_trans a b c : ts_leb a b = true -> ts_leb b c = true -> ts_leb a c = true.
Proof.
  destruct a as [x|], b as [y|], c as [z|]; simpl; try congruence.
  intros H1 H2. apply Z.leb_le in H1. apply Z.leb_le in H2. apply Z.leb_le. lia.
Qed.

Lemma insert_desc_perm r l : Permutation (insert_desc r l) (r :: l).
Proof.
  induction l as [|x l IH]; simpl.
  - apply Permutation_refl.
  - destruct (ts_leb (start_timestamp x) (start_timestamp r)).
    + apply Permutation_refl.
    + apply perm_trans with (x :: r :: l).
      * apply perm_skip. exact IH.
      * apply perm_swap.
Qed.

Lemma order_by_perm l : Permutation (order_by_start_timestamp_desc l) l.
Proof.
  induction l as [|r l IH]; simpl.
  - apply perm_nil.
  - apply perm_trans with (r :: order_by_start_timestamp_desc l).
    + apply insert_desc_perm.
    + apply perm_skip. exact IH.
Qed.

Lemma insert_desc_sorted r l :
  StronglySorted starts_no_later l -> StronglySorted starts_no_later (insert_desc r l).
Proof.
  induction 1 as [|x l Hs IH Hx]; simpl.
  - constructor; constructor.
  - destruct (ts_leb (start_timestamp x) (start_timestamp r)) eqn:E.
    + constructor.
      * constructor; assumption.
      * constructor; [exact E|].
        rewrite Forall_forall in *. intros y Hy. unfold starts_no_later in *.
        apply ts_leb_trans with (start_timestamp x); [apply Hx; exact Hy | exact E].
    + constructor; [exact IH|].
      rewrite Forall_forall in *. intros y Hy.
      apply (Permutation_in _ (insert_desc_perm r l)) in Hy.
      destruct Hy as [<-|Hy].
      * apply ts_leb_total. exact E.
      * apply Hx. exact Hy.
Qed.

Lemma order_by_sorted l : StronglySorted starts_no_later (order_by_start_timestamp_desc l).
Proof.
  induction l as [|r l IH]; simpl.
  - constructor.
  - apply insert_desc_sorted. exact IH.
Qed.

(** C9, as the code has it.  [get_history] returns the runs of the named
    component, each as often as the table has it, ordered by start timestamp
    descending; with [limit=None] it returns all of them, with a limit [n]
    the first [n], and with the limit left out the first 10, the default of
    the parameter.  The store is not changed. *)
Theorem get_history_ordered_and_limited :
  forall (s : Store) (name : string),
    exists history : list ComponentRun,
      Permutation history
        (filter (fun r => String.eqb (component_name r) name) (component_runs s)) /\
      StronglySorted starts_no_later history /\
      get_history name (Some None) s = mkOutcome (inr history) s [] /\
      (forall n : nat,
          get_history name (Some (Some (Z.of_nat n))) s =
          mkOutcome (inr (firstn n history)) s []) /\
      get_history name None s = mkOutcome (inr (firstn 10 history)) s [].
Proof.
  intros s name.
  exists (order_by_start_timestamp_desc
            (filter (fun r => String.eqb (component_name r) name) (component_runs s))).
  split; [apply order_by_perm|].
  split; [apply order_by_sorted|].
  split; [reflexivity|].
  split; [|reflexivity].
  intros n. unfold get_history, with_default, bind, get_store. simpl.
  destruct (Z.of_nat n <? 0)%Z eqn:E.
  - apply Z.ltb_lt in E. lia.
  - simpl. rewrite Nat2Z.id. reflexivity.
Qed.

(** C9 as stated fails where the limit is left out: the component has
    eleven runs and the call returns ten of them. *)
Lemma get_history_unset_limit_truncates :
  exists h : list ComponentRun,
    result (get_history "etl" None eleven_runs) = inr h /\
    List.length h = 10%nat /\
    List.length (filter (fun r => String.eqb (component_name r) "etl")
                        (component_runs eleven_runs)) = 11%nat /\
    ~ Permutation h (filter (fun r => String.eqb (component_name r) "etl")
                            (component_runs eleven_runs)).
Proof.
  eexists. split; [reflexivity|].
  split; [reflexivity|].
  split; [reflexivity|].
  intros HP. apply Permutation_length in HP. vm_compute in HP. discriminate.
Qed.

(* ================================================================== *)
(** ** The dependency walk *)

Lemma _traverse_S fuel s node depth node_list :
  _traverse (S fuel) s node depth node_list =
  match load_dependencies s node with
  | [] => Some (node_list ++ [(depth, node)])
  | neighbors =>
      fold_left (visit fuel s (depth + 1)) neighbors (Some (node_list ++ [(depth, node)]))
  end.
Proof. reflexivity. Qed.

Lemma fold_visit_None fuel s depth neighbors :
  fold_left (visit fuel s depth) neighbors None = None.
Proof. induction neighbors as [|b l IH]; simpl; [reflexivity | exact IH]. Qed.

Lemma PointerTypeEnum_eq_dec (a b : PointerTypeEnum) : {a = b} + {a <> b}.
Proof. decide equality. Qed.

Lemma IOPointer_eq_dec (a b : IOPointer) : {a = b} + {a <> b}.
Proof. decide equality; [apply PointerTypeEnum_eq_dec | apply string_dec]. Qed.

Lemma option_eq_dec {A} (dec : forall x y : A, {x = y} + {x <> y}) (a b : option A) :
  {a = b} + {a <> b}.
Proof. decide equality. Qed.

Lemma ComponentRun_eq_dec (a b : ComponentRun) : {a = b} + {a <> b}.
Proof.
  decide equality;
    first [ apply (list_eq_dec Nat.eq_dec)
          | apply (list_eq_dec IOPointer_eq_dec)
          | apply (option_eq_dec Z.eq_dec)
          | apply (option_eq_dec Nat.eq_dec)
          | apply string_dec ].
Qed.

Lemma load_dependencies_in_table s a b :
  dep_edge s a b -> In b (component_runs s).
Proof.
  unfold dep_edge, load_dependencies. intros H.
  apply in_flat_map in H. destruct H as [i [_ Hb]].
  destruct (find_run s i) as [r|] eqn:E; [|destruct Hb].
  destruct Hb as [<-|[]].
  unfold find_run in E. apply find_some in E. apply E.
Qed.

Lemma chain_in_table s a l :
  chain s a l -> forall x, In x l -> In x (component_runs s).
Proof.
  induction 1 as [|a b l Hab _ IH]; intros x Hx; [destruct Hx|].
  destruct Hx as [<-|Hx]; [exact (load_dependencies_in_table _ _ _ Hab) | exact (IH x Hx)].
Qed.

Lemma chain_split s a l1 x l2 :
  chain s a (l1 ++ x :: l2) ->
  clos_trans ComponentRun (dep_edge s) a x /\ chain s x l2.
Proof.
  revert a. induction l1 as [|y l1 IH]; simpl; intros a H; inversion H; subst.
  - split; [apply t_step; assumption | assumption].
  - destruct (IH _ H4) as [Hyx Hx]. split; [|exact Hx].
    apply t_trans with y; [apply t_step; assumption | exact Hyx].
Qed.

(** A list longer than a list that holds all its elements has a repeat. *)
Lemma repeat_in_long_list (l dom : list ComponentRun) :
  (forall x, In x l -> In x dom) ->
  (List.length dom < List.length l)%nat ->
  exists x l1 l2 l3, l = l1 ++ x :: l2 ++ x :: l3.
Proof.
  revert dom. induction l as [|a l IH]; intros dom Hincl Hlen; [simpl in Hlen; lia|].
  destruct (in_dec ComponentRun_eq_dec a l) as [Hin|Hnin].
  - apply in_split in Hin. destruct Hin as [l2 [l3 ->]].
    exists a, [], l2, l3. reflexivity.
  - assert (Ha : In a dom) by (apply Hincl; left; reflexivity).
    apply in_split in Ha. destruct Ha as [d1 [d2 ->]].
    destruct (IH (d1 ++ d2)) as [x [l1 [l2 [l3 ->]]]].
    + intros x Hx.
      assert (Hx' : In x (d1 ++ a :: d2)) by (apply Hincl; right; exact Hx).
      apply in_app_or in Hx'. apply in_or_app.
      destruct Hx' as [Hx'|[<-|Hx']]; [left; assumption | contradiction | right; assumption].
    + rewrite length_app in *. simpl in *. lia.
    + exists x, (a :: l1), l2, l3. reflexivity.
Qed.

(** A walk that runs out of budget has followed a path as long as the
    budget. *)
Lemma fold_visit_out_of_fuel fuel s depth neighbors acc :
  fold_left (visit fuel s depth) neighbors acc = None ->
  acc = None \/
  exists b node_list, In b neighbors /\ _traverse fuel s b depth node_list = None.
Proof.
  revert acc. induction neighbors as [|b l IH]; simpl; intros acc H.
  - left. exact H.
  - destruct (IH _ H) as [Hv | [b' [nl [Hin Hb']]]].
    + destruct acc as [nl|]; [|left; reflexivity].
      right. exists b, nl. split; [left; reflexivity | exact Hv].
    + right. exists b', nl. split; [right; exact Hin | exact Hb'].
Qed.

Lemma _traverse_out_of_fuel fuel :
  forall s node depth node_list,
    _traverse fuel s node depth node_list = None ->
    exists l, chain s node l /\ List.length l = fuel.
Proof.
  induction fuel as [|fuel IH]; intros s node depth node_list H.
  - exists []. split; [constructor | reflexivity].
  - rewrite _traverse_S in H.
    destruct (load_dependencies s node) as [|b0 rest] eqn:E; [discriminate|].
    apply fold_visit_out_of_fuel in H. destruct H as [H | [b [nl [Hin Hb]]]]; [discriminate|].
    destruct (IH _ _ _ _ Hb) as [l [Hl Hlen]].
    exists (b :: l). split.
    + constructor; [|exact Hl]. unfold dep_edge. rewrite E. exact Hin.
    + simpl. rewrite Hlen. reflexivity.
Qed.

(** More budget does not change the result of a walk that had enough. *)
Lemma _traverse_more_fuel fuel :
  forall fuel' s node depth node_list l,
    (fuel <= fuel')%nat ->
    _traverse fuel s node depth node_list = Some l ->
    _traverse fuel' s node depth node_list = Some l.
Proof.
  induction fuel as [|fuel IH]; intros fuel' s node depth node_list l Hle H;
    [discriminate|].
  destruct fuel' as [|fuel']; [lia|].
  rewrite _traverse_S in *.
  destruct (load_dependencies s node) as [|b0 rest]; [exact H|].
  revert H. generalize (Some (node_list ++ [(depth, node)])).
  generalize (b0 :: rest) as neighbors.
  induction neighbors as [|b nbs IHn]; simpl; intros acc H; [exact H|].
  destruct acc as [nl|]; simpl in *.
  - destruct (_traverse fuel s b (depth + 1) nl) as [nl'|] eqn:Eb.
    + rewrite (IH fuel' s b (depth + 1) nl nl' ltac:(lia) Eb). apply IHn. exact H.
    + rewrite fold_visit_None in H. discriminate.
  - rewrite fold_visit_None in H. discriminate.
Qed.

Lemma no_cycle_terminates s start depth node_list :
  ~ cycle_reachable s start ->
  exists l, _traverse (S (List.length (component_runs s))) s start depth node_list = Some l.
Proof.
  intros Hno.
  destruct (_traverse (S (List.length (component_runs s))) s start depth node_list)
    as [l|] eqn:E; [exists l; reflexivity|].
  exfalso. apply _traverse_out_of_fuel in E. destruct E as [path [Hchain Hlen]].
  destruct (repeat_in_long_list path (component_runs s)) as [x [l1 [l2 [l3 ->]]]].
  - exact (chain_in_table _ _ _ Hchain).
  - lia.
  - apply chain_split in Hchain. destruct Hchain as [Hreach Hx].
    apply chain_split in Hx. destruct Hx as [Hcycle _].
    apply Hno. exists x. split; [|exact Hcycle].
    apply clos_t_clos_rt. exact Hreach.
Qed.

(** A walk that can follow a path as long as its budget runs out of it. *)
Lemma fold_visit_diverges fuel s depth neighbors b :
  In b neighbors ->
  (forall d node_list, _traverse fuel s b d node_list = None) ->
  forall acc, fold_left (visit fuel s depth) neighbors acc = None.
Proof.
  intros Hin Hb. induction neighbors as [|a l IH]; [destruct Hin|].
  intros acc. simpl. destruct Hin as [->|Hin].
  - destruct acc as [nl|]; simpl; [rewrite Hb|]; apply fold_visit_None.
  - apply IH. exact Hin.
Qed.

Lemma chain_diverges fuel :
  forall s node l,
    chain s node l -> List.length l = fuel ->
    forall depth node_list, _traverse fuel s node depth node_list = None.
Proof.
  induction fuel as [|fuel IH]; intros s node l Hchain Hlen depth node_list;
    [reflexivity|].
  destruct Hchain as [a | a b l Hab Hl]; [discriminate|].
  simpl in Hlen. injection Hlen as Hlen.
  rewrite _traverse_S. unfold dep_edge in Hab.
  destruct (load_dependencies s a) as [|b0 rest]; [destruct Hab|].
  apply fold_visit_diverges with b; [exact Hab|].
  intros d nl. exact (IH s b l Hl Hlen d nl).
Qed.

Lemma cycle_has_long_chains s start :
  cycle_reachable s start -> forall k, exists l, chain s start l /\ List.length l = k.
Proof.
  intros [r [Hreach Hcycle]] k.
  apply clos_rt_rt1n in Hreach. revert start Hreach.
  induction k as [|k IH]; intros x Hx.
  - exists []. split; [constructor | reflexivity].
  - assert (Hnext : exists y, dep_edge s x y /\ clos_refl_trans_1n _ (dep_edge s) y r).
    { inversion Hx as [Heq | y z Hxy Hyz]; subst.
      - apply clos_trans_t1n in Hcycle.
        inversion Hcycle as [y Hxy | y z Hxy Hyz]; subst.
        + exists r. split; [exact Hxy | constructor].
        + exists y. split; [exact Hxy|].
          apply clos_rt_rt1n, clos_t_clos_rt, clos_t1n_trans. exact Hyz.
      - exists y. split; assumption. }
    destruct Hnext as [y [Hxy Hyr]].
    destruct (IH y Hyr) as [l [Hl Hlen]].
    exists (y :: l). split; [constructor; assumption | simpl; rewrite Hlen; reflexivity].
Qed.

Lemma acyclic_no_cycle_reachable s start : acyclic s -> ~ cycle_reachable s start.
Proof. intros Ha [r [_ Hc]]. exact (Ha r Hc). Qed.

(** C8. The walk of [trace] terminates on every acyclic dependency graph:
    from some recursion budget on, [_traverse] returns one and the same
    list.  When a run on a cycle can be reached from the starting run, no
    budget is enough: the walk never returns. *)
Theorem _traverse_terminates_unless_cycle :
  forall (s : Store) (start : ComponentRun) (depth : nat)
         (node_list : list (nat * ComponentRun)),
    (acyclic s ->
     exists fuel l, forall fuel', (fuel <= fuel')%nat ->
                                  _traverse fuel' s start depth node_list = Some l) /\
    (cycle_reachable s start ->
     forall fuel, _traverse fuel s start depth node_list = None).
Proof.
  intros s start depth node_list. split.
  - intros Hacyc.
    destruct (no_cycle_terminates s start depth node_list
                (acyclic_no_cycle_reachable s start Hacyc)) as [l Hl].
    exists (S (List.length (component_runs s))), l. intros fuel' Hle.
    exact (_traverse_more_fuel _ fuel' s start depth node_list l Hle Hl).
  - intros Hcyc fuel.
    destruct (cycle_has_long_chains s start Hcyc fuel) as [l [Hl Hlen]].
    exact (chain_diverges fuel s start l Hl Hlen depth node_list).
Qed.

(** A store is acyclic when every edge leaves a row for a row of smaller
    rank. *)
Lemma acyclic_by_rank s (rank : ComponentRun -> nat) :
  (forall a b, In a (component_runs s) -> dep_edge s a b -> (rank b < rank a)%nat) ->
  acyclic s.
Proof.
  intros Hrank r Hcycle.
  assert (Hin : forall a b, clos_trans _ (dep_edge s) a b -> In b (component_runs s)).
  { induction 1; [eapply load_dependencies_in_table; eassumption | assumption]. }
  assert (Hlt : forall a b, clos_trans_1n _ (dep_edge s) a b ->
                            In a (component_runs s) -> (rank b < rank a)%nat).
  { induction 1 as [a b Hab | a b c Hab Hbc IH]; intros Ha.
    - exact (Hrank a b Ha Hab).
    - specialize (Hrank a b Ha Hab).
      specialize (IH (load_dependencies_in_table _ _ _ Hab)). lia. }
  specialize (Hlt r r (clos_trans_t1n _ _ _ _ Hcycle) (Hin r r Hcycle)). lia.
Qed.

Lemma computation_store_acyclic : acyclic computation_store.
Proof.
  apply acyclic_by_rank with rank_by_id.
  intros a b Ha Hab. unfold dep_edge in Hab.
  simpl in Ha.
  destruct Ha as [<-|[<-|[<-|[<-|[]]]]]; simpl in Hab;
    repeat (destruct Hab as [<-|Hab]; [simpl; unfold rank_by_id; simpl; lia|]);
    destruct Hab.
Qed.

Lemma self_feeding_cycle :
  cycle_reachable self_feeding_store (row self_feeding_store 1).
Proof.
  exists (row self_feeding_store 1). split.
  - apply rt_refl.
  - apply t_step. unfold dep_edge. simpl. left. reflexivity.
Qed.

Lemma _traverse_terminates_unless_cycle_witness :
  (acyclic computation_store /\
   exists fuel l, forall fuel', (fuel <= fuel')%nat ->
     _traverse fuel' computation_store (row computation_store 4) 1 [] = Some l) /\
  (cycle_reachable self_feeding_store (row self_feeding_store 1) /\
   forall fuel,
     _traverse fuel self_feeding_store (row self_feeding_store 1) 1 [] = None).
Proof.
  split; split.
  - exact computation_store_acyclic.
  - exact (proj1 (_traverse_terminates_unless_cycle
                    computation_store (row computation_store 4) 1 [])
                 computation_store_acyclic).
  - exact self_feeding_cycle.
  - exact (proj2 (_traverse_terminates_unless_cycle
                    self_feeding_store (row self_feeding_store 1) 1 [])
                 self_feeding_cycle).
Defined.

(* ================================================================== *)
(** ** Dependency resolution: which matches become dependencies *)

Lemma outerjoin_outputs_Some runs cr p :
  In (cr, Some p) (outerjoin_outputs runs) <-> In cr runs /\ In p (outputs cr).
Proof.
  unfold outerjoin_outputs. rewrite in_flat_map. split.
  - intros [cr' [Hcr' Hrow]].
    destruct (outputs cr') as [|p0 ps] eqn:E.
    + destruct Hrow as [Hrow|[]]. discriminate.
    + apply in_map_iff in Hrow. destruct Hrow as [q [Hq Hin]].
      injection Hq as <- <-. rewrite E. split; assumption.
  - intros [Hcr Hp]. exists cr. split; [assumption|].
    destruct (outputs cr) as [|p0 ps]; [destruct Hp|].
    apply in_map_iff. exists p. split; [reflexivity | assumption].
Qed.

Lemma str_in_In x l : str_in x l = true <-> In x l.
Proof.
  unfold str_in. rewrite existsb_exists. split.
  - intros [y [Hy E]]. apply String.eqb_eq in E. subst. assumption.
  - intros H. exists x. split; [assumption | apply String.eqb_refl].
Qed.

(** The runs the query hands to [set_upstream]: every run of the table one
    of whose outputs is named like an input, its timestamp playing no part. *)
Lemma matches_query_runs s input_ids cr :
  In cr (map fst (matches_query s input_ids)) <->
  In cr (component_runs s) /\
  exists p, In p (outputs cr) /\ In (iop_name p) input_ids.
Proof.
  unfold matches_query. rewrite map_map. simpl. rewrite in_map_iff. split.
  - intros [[cr' op] [Heq Hrow]]. simpl in Heq. subst cr'.
    apply filter_In in Hrow. destruct Hrow as [Hrow Hname].
    unfold name_in_ in Hname. simpl in Hname.
    destruct op as [p|]; [|discriminate].
    apply outerjoin_outputs_Some in Hrow. destruct Hrow as [Hcr Hp].
    split; [assumption|]. exists p. split; [assumption|].
    apply str_in_In. assumption.
  - intros [Hcr [p [Hp Hname]]]. exists (cr, Some p). split; [reflexivity|].
    apply filter_In. split.
    + apply outerjoin_outputs_Some. split; assumption.
    + unfold name_in_. simpl. apply str_in_In. assumption.
Qed.

Lemma run_ids_In i l : In i (run_ids l) <-> exists cr, In cr l /\ id cr = Some i.
Proof.
  unfold run_ids. rewrite in_flat_map. split.
  - intros [cr [Hcr Hi]]. exists cr. split; [assumption|].
    destruct (id cr) as [j|]; [|destruct Hi]. destruct Hi as [<-|[]]. reflexivity.
  - intros [cr [Hcr Hid]]. exists cr. split; [assumption|].
    rewrite Hid. left. reflexivity.
Qed.

(** What [set_dependencies_from_inputs] leaves in [dependencies]: when some
    run of the table produced one of the inputs, the ids of all the runs
    that did; otherwise the run is returned as it came.  The store is only
    read. *)
Lemma set_dependencies_from_inputs_every_match s r :
  exists r',
    set_dependencies_from_inputs r s = mkOutcome (inr r') s [] /\
    ((forall cr, In cr (component_runs s) ->
                 forall p, In p (outputs cr) ->
                           ~ In (iop_name p) (map iop_name (inputs r))) ->
     r' = r) /\
    ((exists cr p, In cr (component_runs s) /\ In p (outputs cr) /\
                   In (iop_name p) (map iop_name (inputs r))) ->
     forall i, In i (dependencies r') <->
               exists cr p, In cr (component_runs s) /\ id cr = Some i /\
                            In p (outputs cr) /\
                            In (iop_name p) (map iop_name (inputs r))).
Proof.
  unfold set_dependencies_from_inputs, bind, get_store. simpl.
  pose proof (matches_query_runs s (map iop_name (inputs r))) as Hq.
  destruct (map fst (matches_query s (map iop_name (inputs r)))) as [|m ms] eqn:E.
  - exists r. split; [reflexivity|]. split; [reflexivity|].
    intros [cr [p [Hcr [Hp Hname]]]]. exfalso.
    apply (proj2 (Hq cr)). split; [assumption|]. exists p. split; assumption.
  - eexists. split; [reflexivity|]. split.
    + intros Hnone. exfalso.
      destruct (proj1 (Hq m) (or_introl eq_refl)) as [Hm [p [Hp Hname]]].
      exact (Hnone m Hm p Hp Hname).
    + intros _ i. unfold set_upstream. cbn [dependencies].
      rewrite nodup_In, run_ids_In. split.
      * intros [cr [Hcr Hid]]. destruct (proj1 (Hq cr) Hcr) as [Hin [p [Hp Hname]]].
        exists cr, p. repeat split; assumption.
      * intros [cr [p [Hcr [Hid [Hp Hname]]]]]. exists cr. split; [|assumption].
        apply (proj2 (Hq cr)). split; [assumption|]. exists p. split; assumption.
Qed.

(** C1, the code at the recency scenario.  The older producer (run 1,
    started at 1) is made a dependency of the consumer next to the newer one
    (run 2, started at 3): the window function of the query does not drop
    the rows below the maximum, and all matches reach [set_upstream]. *)
Theorem set_dependencies_from_inputs_keeps_older_producer :
  let o := recency_history empty_store in
  map (fun r => (id r, component_name r, start_timestamp r))
      (component_runs (store_after o)) =
    [(Some 1%nat, "producer", Some 1%Z); (Some 2%nat, "producer", Some 3%Z)] /\
  exists r, result o = inr r /\ dependencies r = [1%nat; 2%nat].
Proof.
  split; [reflexivity|]. eexists. split; reflexivity.
Qed.

(* ================================================================== *)
(** ** Trace: the shape of the walk *)

Lemma fold_visit_extends fuel s depth
  (IH : forall node d node_list l,
      _traverse fuel s node d node_list = Some l -> exists rest, l = node_list ++ rest)
  neighbors :
  forall acc l,
    fold_left (visit fuel s depth) neighbors (Some acc) = Some l ->
    exists rest, l = acc ++ rest.
Proof.
  induction neighbors as [|b nbs IHn]; simpl; intros acc l H.
  - injection H as <-. exists []. rewrite app_nil_r. reflexivity.
  - destruct (_traverse fuel s b depth acc) as [acc'|] eqn:Eb.
    + destruct (IH _ _ _ _ Eb) as [r1 ->].
      destruct (IHn _ _ H) as [r2 ->].
      exists (r1 ++ r2). rewrite app_assoc. reflexivity.
    + rewrite fold_visit_None in H. discriminate.
Qed.

(** Pre-order: the walk keeps what the list held, then records the node at
    its depth, then whatever the walks of its dependencies add. *)
Lemma _traverse_records_node_first fuel :
  forall s node depth node_list l,
    _traverse fuel s node depth node_list = Some l ->
    exists rest, l = node_list ++ (depth, node) :: rest.
Proof.
  induction fuel as [|fuel IH]; intros s node depth node_list l H; [discriminate|].
  rewrite _traverse_S in H.
  destruct (load_dependencies s node) as [|b0 nbs].
  - injection H as <-. exists []. reflexivity.
  - apply fold_visit_extends in H.
    + destruct H as [rest ->]. exists rest. rewrite <- app_assoc. reflexivity.
    + intros nd d nl l' Hl'. destruct (IH s nd d nl l' Hl') as [rest ->].
      exists ((d, nd) :: rest). reflexivity.
Qed.

Lemma fold_visit_preorder fuel s depth
  (IH : forall node d node_list,
      _traverse fuel s node d node_list =
      option_map (app node_list) (preorder fuel s node d))
  neighbors :
  forall acc,
    fold_left (visit fuel s depth) neighbors (Some acc) =
    option_map (fun below => acc ++ List.concat below)
               (all_some (map (fun neighbor => preorder fuel s neighbor depth) neighbors)).
Proof.
  induction neighbors as [|b nbs IHn]; intros acc; simpl.
  - rewrite app_nil_r. reflexivity.
  - rewrite IH. destruct (preorder fuel s b depth) as [lb|]; simpl.
    + rewrite IHn.
      destruct (all_some (map (fun neighbor => preorder fuel s neighbor depth) nbs));
        simpl; [rewrite app_assoc|]; reflexivity.
    + apply fold_visit_None.
Qed.

(** [_traverse] appends to its list the pre-order listing of the node: every
    run before the runs it depends on, every dependency one level below the
    run that lists it. *)
Lemma _traverse_is_preorder fuel :
  forall s node depth node_list,
    _traverse fuel s node depth node_list =
    option_map (app node_list) (preorder fuel s node depth).
Proof.
  induction fuel as [|fuel IH]; intros s node depth node_list; [reflexivity|].
  rewrite _traverse_S. cbn [preorder].
  destruct (load_dependencies s node) as [|b0 nbs] eqn:E.
  - reflexivity.
  - rewrite (fold_visit_preorder fuel s (depth + 1) (IH s) (b0 :: nbs)).
    destruct (all_some (map (fun neighbor => preorder fuel s neighbor (depth + 1))
                            (b0 :: nbs))); simpl; [|reflexivity].
    rewrite <- app_assoc. reflexivity.
Qed.

(** Whatever run the query of [trace] finds, the list [trace] returns starts
    with that run at depth 1. *)
Lemma trace_records_root_at_depth_1 fuel output_id s o l :
  trace fuel output_id s = Some o -> result o = inr l ->
  exists root rest, trace_query s output_id = Some root /\ l = (1%nat, root) :: rest.
Proof.
  unfold trace. destruct (trace_query s output_id) as [root|].
  - destruct (_traverse fuel s root 1 []) as [nl|] eqn:E; [|discriminate].
    intros [= <-]. simpl. intros [= <-].
    destruct (_traverse_records_node_first _ _ _ _ _ _ E) as [rest ->].
    exists root, rest. split; reflexivity.
  - intros [= <-]. simpl. discriminate.
Qed.

(** C2, the code at the scenario of the specification.  [trace("iop_4")]
    does not yield [(0, cr4); (1, cr3); (2, cr2)]: the root is recorded at
    depth 1,
    and the query picks the first run of the table, cr1, because its filter
    on the pointer name is not joined to the outputs of the run.  Started at
    cr4 the way [trace] starts it, the walk records cr4 at depth 1, cr3 at
    depth 2 and both cr1 and cr2 at depth 3. *)
Theorem trace_iop_4_in_computation_store :
  let s := computation_store in
  trace 10 "iop_4" s =
    Some (mkOutcome (inr [(1%nat, row s 1)]) s [Stdout_printing_trace "iop_4"]) /\
  _traverse 10 s (row s 4) 1 [] =
    Some [(1%nat, row s 4); (2%nat, row s 3); (3%nat, row s 1); (3%nat, row s 2)].
Proof. split; reflexivity. Qed.

(* ================================================================== *)
(** ** Trace: an artifact nothing produced *)

Lemma trace_query_no_pointer s output_id :
  (forall p, In p (io_pointers s) -> iop_name p <> output_id) ->
  trace_query s output_id = None.
Proof.
  intros Hno. unfold trace_query.
  destruct (filter _ (list_prod (component_runs s) (io_pointers s))) as [|row0 rows] eqn:E;
    [reflexivity|].
  exfalso.
  assert (Hin : In row0 (filter (fun row => String.eqb (iop_name (snd row)) output_id)
                                (list_prod (component_runs s) (io_pointers s))))
    by (rewrite E; left; reflexivity).
  apply filter_In in Hin. destruct Hin as [Hprod Hname].
  destruct row0 as [cr p]. apply in_prod_iff in Hprod. destruct Hprod as [_ Hp].
  simpl in Hname. apply String.eqb_eq in Hname. exact (Hno p Hp Hname).
Qed.

(** With no pointer of that name in the store, [trace] ends in the
    [AttributeError] of [None.dependencies], whatever the budget. *)
Lemma trace_no_pointer_AttributeError fuel s output_id :
  (forall p, In p (io_pointers s) -> iop_name p <> output_id) ->
  trace fuel output_id s =
  Some (mkOutcome (inl (AttributeError_NoneType "dependencies")) s
                  [Stdout_printing_trace output_id]).
Proof.
  intros Hno. unfold trace. rewrite (trace_query_no_pointer s output_id Hno). reflexivity.
Qed.

(** C4, the code at the input of [testEmptyTrace].  On a name no run
    produced, [trace] raises no not-found error: it reads [dependencies] off
    [None] and ends in an [AttributeError], on the empty store and on the
    store of the computation alike. *)
Theorem trace_unknown_name_AttributeError :
  forall fuel : nat,
    trace fuel "some_weird_pointer" empty_store =
      Some (mkOutcome (inl (AttributeError_NoneType "dependencies")) empty_store
                      [Stdout_printing_trace "some_weird_pointer"]) /\
    trace fuel "some_weird_pointer" computation_store =
      Some (mkOutcome (inl (AttributeError_NoneType "dependencies")) computation_store
                      [Stdout_printing_trace "some_weird_pointer"]).
Proof. intros fuel. split; reflexivity. Qed.

(** A pointer that exists but that no run lists among its outputs: [trace]
    returns the walk of the first run of the table. *)
Example trace_unproduced_pointer_returns_a_walk :
  let s := store_after (get_io_pointer by_extension "orphan.csv" None computation_store) in
  (forall cr, In cr (component_runs s) ->
              forall p, In p (outputs cr) -> iop_name p <> "orphan.csv") /\
  option_map (@result _) (trace 10 "orphan.csv" s) = Some (inr [(1%nat, row s 1)]).
Proof.
  split; [|reflexivity].
  intros cr Hcr p Hp. simpl in Hcr.
  destruct Hcr as [<-|[<-|[<-|[<-|[]]]]]; simpl in Hp;
    repeat (destruct Hp as [<-|Hp]; [discriminate|]); destruct Hp.
Qed.

(* ================================================================== *)
(** ** Commit *)

Lemma commit_incomplete_run s r :
  success (check_completeness r) = false ->
  commit_component_run r s =
  mkOutcome (inl TypeError_exceptions_must_derive_from_BaseException) s [].
Proof.
  intros H. unfold commit_component_run. rewrite H. reflexivity.
Qed.

Lemma check_completeness_success r :
  success (check_completeness r) = true <->
  start_timestamp r <> None /\ end_timestamp r <> None /\ outputs r <> [].
Proof.
  unfold check_completeness.
  destruct (start_timestamp r), (end_timestamp r), (outputs r); simpl;
    split; try discriminate; try (intros [? [? ?]]; congruence);
    intros _; repeat split; discriminate.
Qed.

(** A complete run that has no id yet is committed: the call returns, logs,
    and the run is the last row of the table, under the next id. *)
Lemma commit_complete_run s r :
  success (check_completeness r) = true -> id r = None ->
  commit_component_run r s =
  mkOutcome (inr tt)
    (mkStore (components s) (tags s)
       (store_pointers_by_name (io_pointers s) (inputs r ++ outputs r))
       (component_runs s ++
          [mkComponentRun (Some (next_run_id s)) (component_name r) (start_timestamp r)
                          (end_timestamp r) (inputs r) (outputs r) (dependencies r)])
       (S (next_run_id s)))
    [Log_committing_run (component_name r)].
Proof.
  intros H Hid. unfold commit_component_run. rewrite H. simpl.
  unfold bind, session_add_component_run, get_store, bind. simpl. rewrite Hid. reflexivity.
Qed.

Lemma store_pointers_by_name_keeps objects :
  forall table, exists added, store_pointers_by_name table objects = table ++ added.
Proof.
  induction objects as [|p objects IH]; intros table; simpl.
  - exists []. rewrite app_nil_r. reflexivity.
  - destruct (has_pointer_named (iop_name p) table).
    + apply IH.
    + destruct (IH (table ++ [p])) as [added Hadd].
      exists (p :: added). rewrite Hadd, <- app_assoc. reflexivity.
Qed.

(** The pointers of a committed run are in the pointer table, by name, and
    the pointers the table had are still there. *)
Lemma store_pointers_by_name_names objects :
  forall table p, In p objects ->
                  In (iop_name p) (map iop_name (store_pointers_by_name table objects)).
Proof.
  induction objects as [|q objects IH]; intros table p Hp; [destruct Hp|].
  simpl. destruct Hp as [->|Hp]; [|apply IH; exact Hp].
  destruct (has_pointer_named (iop_name p) table) eqn:E.
  - destruct (store_pointers_by_name_keeps objects table) as [added ->].
    rewrite map_app. apply in_or_app. left.
    unfold has_pointer_named in E. apply existsb_exists in E.
    destruct E as [x [Hx Hname]]. apply String.eqb_eq in Hname.
    apply in_map_iff. exists x. split; assumption.
  - destruct (store_pointers_by_name_keeps objects (table ++ [p])) as [added ->].
    rewrite !map_app. apply in_or_app. left. apply in_or_app. right.
    left. reflexivity.
Qed.

(** C3, the code at the input of [testIncompleteComponentRun].  The empty
    run lacks all three fields; [commit_component_run] persists nothing, and
    what it raises is the [TypeError] of raising a string, which names no
    field, not a completeness error. *)
Theorem commit_empty_run_raises_TypeError :
  let s := store_after
             (create_component "test_component" "test_description" "shreya" []
                               empty_store) in
  let cr := initialize_empty_component_run "test_component" in
  msg (check_completeness cr) =
    Msg_incomplete_run [F_start_timestamp; F_end_timestamp; F_outputs] /\
  commit_component_run cr s =
    mkOutcome (inl TypeError_exceptions_must_derive_from_BaseException) s [].
Proof. split; reflexivity. Qed.

(* ================================================================== *)
(** ** Names of tags and pointers *)

Lemma preserves_ret {A} P (a : A) : preserves P (ret a).
Proof. intros s H. exact H. Qed.

Lemma preserves_bind {A B} P (m : M A) (k : A -> M B) :
  preserves P m -> (forall a, preserves P (k a)) -> preserves P (bind m k).
Proof.
  intros Hm Hk s H. unfold bind. specialize (Hm s H).
  destruct (result (m s)) as [e|a]; simpl; [exact Hm|].
  exact (Hk a _ Hm).
Qed.

Lemma preserves_mapM {A B} P (f : A -> M B) (l : list A) :
  (forall a, preserves P (f a)) -> preserves P (mapM f l).
Proof.
  intros Hf. induction l as [|a l IH]; simpl.
  - apply preserves_ret.
  - apply preserves_bind; [apply Hf|]. intros b.
    apply preserves_bind; [exact IH|]. intros bs. apply preserves_ret.
Qed.

Lemma reads_only_preserves {A} P (m : M A) : reads_only m -> preserves P m.
Proof. intros Hm s H. destruct (Hm s) as [-> _]. exact H. Qed.

Lemma NoDup_snoc {A} (l : list A) (x : A) : NoDup l -> ~ In x l -> NoDup (l ++ [x]).
Proof.
  intros Hl Hx. apply Permutation_NoDup with (x :: l).
  - apply Permutation_cons_append.
  - constructor; assumption.
Qed.

Lemma filter_nil_not_In {A} (key : A -> string) (name : string) (l : list A) :
  filter (fun a => String.eqb (key a) name) l = [] -> ~ In name (map key l).
Proof.
  intros Hf Hin. apply in_map_iff in Hin. destruct Hin as [a [Ha Hin]].
  assert (H : In a (filter (fun a => String.eqb (key a) name) l)).
  { apply filter_In. split; [assumption|]. apply String.eqb_eq. assumption. }
  rewrite Hf in H. exact H.
Qed.

(** The get-or-create operations keep names unique. *)
Lemma get_tag_unique_names name : preserves unique_names (get_tag name).
Proof.
  intros s [Ht Hp]. unfold get_tag, bind, get_store. simpl.
  destruct (filter (fun t => String.eqb (tag_name t) name) (tags s)) as [|t0 ts] eqn:E.
  - simpl. split; [|exact Hp]. simpl. rewrite map_app. simpl.
    apply NoDup_snoc; [exact Ht|]. apply filter_nil_not_In. exact E.
  - simpl. split; assumption.
Qed.

Lemma get_io_pointer_unique_names ext name pointer_type :
  preserves unique_names (get_io_pointer ext name pointer_type).
Proof.
  intros s [Ht Hp]. unfold get_io_pointer, bind, get_store. simpl.
  destruct (filter (fun p => String.eqb (iop_name p) name) (io_pointers s))
    as [|p0 ps] eqn:E.
  - simpl. split; [exact Ht|]. simpl. rewrite map_app. simpl.
    apply NoDup_snoc; [exact Hp|]. apply filter_nil_not_In. exact E.
  - simpl. split; assumption.
Qed.

(** [add_tags_to_component] resolves the names through [get_tag] and keeps
    names unique. *)
Lemma add_tags_to_component_unique_names component_name tags :
  preserves unique_names (add_tags_to_component component_name tags).
Proof.
  unfold add_tags_to_component.
  apply preserves_bind.
  - apply reads_only_preserves. unfold _get_component.
    apply reads_only_bind; [apply reads_only_get_store|]. intros s. apply reads_only_ret.
  - intros [c|].
    + apply preserves_bind.
      * apply preserves_mapM. intros name. apply get_tag_unique_names.
      * intros tag_objects. apply preserves_bind.
        -- intros s H. exact H.
        -- intros _. apply preserves_ret.
    + intros s H. exact H.
Qed.

(** The records [create_component] can log. *)
Lemma create_component_logs s name d o ts :
  logged (create_component name d o ts s) = [Log_component_exists name] \/
  logged (create_component name d o ts s) = [Log_creating_component name d o ts].
Proof.
  destruct (find (fun c => String.eqb (comp_name c) name) (components s)) as [c|] eqn:E.
  - left. rewrite (create_component_existing s name d o ts c E). reflexivity.
  - right. rewrite (create_component_fresh s name d o ts E). reflexivity.
Qed.


(* ================================================================== *)
(** * Further properties of the store *)

(** ** Tags and pointers: get or create *)

Lemma filter_snoc_head {A} (f : A -> bool) (l : list A) (a : A) :
  filter f l = [] -> f a = true -> filter f (l ++ [a]) = [a].
Proof.
  intros Hl Ha. rewrite filter_app, Hl. simpl. rewrite Ha. reflexivity.
Qed.

(** X1. [get_tag] gets or creates: the tag it returns is named as asked; the
    call changes nothing but the tag table, to which it adds that tag when
    no tag had the name and nothing otherwise; and a second call for the same
    name returns the same tag, changes nothing and logs nothing. *)
Theorem get_tag_get_or_create :
  forall (s : Store) (name : string),
    let o1 := get_tag name s in
    let o2 := get_tag name (store_after o1) in
    (exists t, result o1 = inr t /\ tag_name t = name /\
               In t (tags (store_after o1))) /\
    (tags (store_after o1) = tags s \/
     (~ In name (map tag_name (tags s)) /\
      tags (store_after o1) = tags s ++ [mkTag name])) /\
    components (store_after o1) = components s /\
    io_pointers (store_after o1) = io_pointers s /\
    component_runs (store_after o1) = component_runs s /\
    result o2 = result o1 /\ store_after o2 = store_after o1 /\ logged o2 = [].
Proof.
  intros s name. unfold get_tag, bind, get_store. simpl.
  destruct (filter (fun t => String.eqb (tag_name t) name) (tags s)) as [|t0 ts] eqn:E.
  - simpl.
    rewrite (filter_snoc_head (fun t => String.eqb (tag_name t) name) (tags s)
               (mkTag name) E (String.eqb_refl name)).
    simpl. repeat split.
    + exists (mkTag name). repeat split. apply in_or_app. right. left. reflexivity.
    + right. split; [|reflexivity]. apply filter_nil_not_In. exact E.
  - simpl. rewrite E. simpl.
    assert (Hin : In t0 (filter (fun t => String.eqb (tag_name t) name) (tags s)))
      by (rewrite E; left; reflexivity).
    apply filter_In in Hin. destruct Hin as [Hin Hname]. apply String.eqb_eq in Hname.
    repeat split.
    + exists t0. repeat split; assumption.
    + left. reflexivity.
Qed.

(** X2. [get_io_pointer] gets or creates, and never retypes: the pointer it
    returns is named as asked; when no pointer had the name its type is the
    type passed, or the type the extension heuristic gives when none is
    passed; a second call for the same name returns the same pointer and
    changes nothing, whatever type that call passes. *)
Theorem get_io_pointer_get_or_create :
  forall (ext : string -> PointerTypeEnum) (s : Store) (name : string)
         (pointer_type' pointer_type'' : option PointerTypeEnum),
    let o1 := get_io_pointer ext name pointer_type' s in
    let o2 := get_io_pointer ext name pointer_type'' (store_after o1) in
    (exists p, result o1 = inr p /\ iop_name p = name /\
               In p (io_pointers (store_after o1)) /\
               (~ In name (map iop_name (io_pointers s)) ->
                pointer_type p = match pointer_type' with
                                 | Some t => t
                                 | None => ext name
                                 end)) /\
    components (store_after o1) = components s /\
    tags (store_after o1) = tags s /\
    component_runs (store_after o1) = component_runs s /\
    result o2 = result o1 /\ store_after o2 = store_after o1 /\ logged o2 = [].
Proof.
  intros ext s name pt pt'. unfold get_io_pointer, bind, get_store. simpl.
  destruct (filter (fun p => String.eqb (iop_name p) name) (io_pointers s))
    as [|p0 ps] eqn:E.
  - simpl.
    rewrite (filter_snoc_head (fun p => String.eqb (iop_name p) name) (io_pointers s)
               (mkIOPointer name (match pt with Some t => t | None => ext name end))
               E (String.eqb_refl name)).
    simpl. repeat split.
    eexists. repeat split.
    apply in_or_app. right. left. reflexivity.
  - simpl. rewrite E. simpl.
    assert (Hin : In p0 (filter (fun p => String.eqb (iop_name p) name) (io_pointers s)))
      by (rewrite E; left; reflexivity).
    apply filter_In in Hin. destruct Hin as [Hin Hname]. apply String.eqb_eq in Hname.
    repeat split.
    exists p0. repeat split; try assumption.
    intros Hno. exfalso. apply Hno. apply in_map_iff. exists p0. split; assumption.
Qed.

Lemma get_io_pointer_get_or_create_witness :
  let s := empty_store in
  let o1 := get_io_pointer by_extension "scores" (Some ENDPOINT) s in
  let o2 := get_io_pointer by_extension "scores" (Some DATABASE_TABLE) (store_after o1) in
  ~ In "scores" (map iop_name (io_pointers s)) /\
  exists p, result o1 = inr p /\ pointer_type p = ENDPOINT /\ result o2 = inr p.
Proof.
  intros s o1 o2.
  assert (Hno : ~ In "scores" (map iop_name (io_pointers s))) by (intros []).
  split; [exact Hno|].
  destruct (get_io_pointer_get_or_create by_extension s "scores"
              (Some ENDPOINT) (Some DATABASE_TABLE))
    as [[p [Hp [_ [_ Htype]]]] [_ [_ [_ [H2 _]]]]].
  exists p. split; [exact Hp|]. split; [exact (Htype Hno)|].
  fold o1 in Hp. fold o1 o2 in H2. rewrite H2. exact Hp.
Defined.

Lemma reads_only_set_dependencies_from_inputs r :
  reads_only (set_dependencies_from_inputs r).
Proof.
  unfold set_dependencies_from_inputs.
  apply reads_only_bind; [apply reads_only_get_store|]. intros s.
  destruct (map fst (matches_query s (map iop_name (inputs r)))); apply reads_only_ret.
Qed.

(** X3. The store's own operations on tags and pointers keep names unique:
    [get_tag], [get_io_pointer] and [add_tags_to_component], which look a
    name up before they add it, and [set_dependencies_from_inputs] and
    [create_output_ids], which add nothing, all leave a store in which no two
    tags and no two pointers share a name in that state. *)
Theorem operations_keep_names_unique :
  forall (s : Store),
    unique_names s ->
    (forall name, unique_names (store_after (get_tag name s))) /\
    (forall ext name pointer_type',
        unique_names (store_after (get_io_pointer ext name pointer_type' s))) /\
    (forall component_name' tags',
        unique_names (store_after (add_tags_to_component component_name' tags' s))) /\
    (forall r, unique_names (store_after (set_dependencies_from_inputs r s))) /\
    (forall n, unique_names (store_after (create_output_ids n s))).
Proof.
  intros s H. split; [|split; [|split; [|split]]]; intros.
  - apply get_tag_unique_names. exact H.
  - apply get_io_pointer_unique_names. exact H.
  - apply add_tags_to_component_unique_names. exact H.
  - apply (reads_only_preserves unique_names); [|exact H].
    apply reads_only_set_dependencies_from_inputs.
  - apply (reads_only_preserves unique_names); [|exact H].
    apply reads_only_create_output_ids.
Qed.

Lemma computation_store_unique_names : unique_names computation_store.
Proof.
  split; simpl.
  - constructor.
  - repeat (constructor; [simpl; intuition discriminate|]). constructor.
Qed.

Lemma operations_keep_names_unique_witness :
  unique_names computation_store /\
  unique_names (store_after (get_tag "nightly" computation_store)) /\
  unique_names
    (store_after (get_io_pointer by_extension "iop_5" None computation_store)).
Proof.
  split; [exact computation_store_unique_names|].
  destruct (operations_keep_names_unique computation_store computation_store_unique_names)
    as [Htag [Hiop _]].
  split; [apply Htag | apply Hiop].
Defined.

(** ** Tagging a component *)

(** X4. [add_tags_to_component] on a name no component has: the call ends in
    the [TypeError] of raising a string, before any tag is looked up or
    created; the store is unchanged and nothing is logged. *)
Theorem add_tags_to_component_unknown_component :
  forall (s : Store) (component_name' : string) (tags' : list string),
    (forall c, In c (components s) -> comp_name c <> component_name') ->
    add_tags_to_component component_name' tags' s =
    mkOutcome (inl TypeError_exceptions_must_derive_from_BaseException) s [].
Proof.
  intros s cn ts Hno.
  unfold add_tags_to_component, bind, _get_component, get_store, ret. simpl.
  destruct (find (fun c => String.eqb (comp_name c) cn) (components s)) as [c|] eqn:E.
  - exfalso. apply find_some in E. destruct E as [Hin Hname].
    apply String.eqb_eq in Hname. exact (Hno c Hin Hname).
  - reflexivity.
Qed.

Lemma add_tags_to_component_unknown_component_witness :
  (forall c, In c (components computation_store) -> comp_name c <> "other_component") /\
  add_tags_to_component "other_component" ["tag1"; "tag2"] computation_store =
  mkOutcome (inl TypeError_exceptions_must_derive_from_BaseException)
            computation_store [].
Proof.
  assert (H : forall c, In c (components computation_store) ->
                        comp_name c <> "other_component").
  { intros c Hc. simpl in Hc. destruct Hc as [<-|[]]. discriminate. }
  split; [exact H|].
  exact (add_tags_to_component_unknown_component computation_store "other_component"
           ["tag1"; "tag2"] H).
Defined.

(** What one [get_tag] does to the store. *)
Lemma get_tag_effect s name :
  (exists t, result (get_tag name s) = inr t /\ tag_name t = name /\
             In t (tags (store_after (get_tag name s)))) /\
  (exists added, tags (store_after (get_tag name s)) = tags s ++ added) /\
  components (store_after (get_tag name s)) = components s /\
  io_pointers (store_after (get_tag name s)) = io_pointers s /\
  component_runs (store_after (get_tag name s)) = component_runs s /\
  next_run_id (store_after (get_tag name s)) = next_run_id s.
Proof.
  unfold get_tag, bind, get_store. simpl.
  destruct (filter (fun t => String.eqb (tag_name t) name) (tags s)) as [|t0 ts] eqn:E;
    simpl.
  - repeat split.
    + exists (mkTag name). repeat split. apply in_or_app. right. left. reflexivity.
    + exists [mkTag name]. reflexivity.
  - assert (Hin : In t0 (filter (fun t => String.eqb (tag_name t) name) (tags s)))
      by (rewrite E; left; reflexivity).
    apply filter_In in Hin. destruct Hin as [Hin Hname]. apply String.eqb_eq in Hname.
    repeat split.
    + exists t0. repeat split; assumption.
    + exists []. rewrite app_nil_r. reflexivity.
Qed.

(** A computation that returned, followed by another. *)
Lemma bind_inr {A B} (m : M A) (k : A -> M B) s a :
  result (m s) = inr a ->
  bind m k s =
  mkOutcome (result (k a (store_after (m s)))) (store_after (k a (store_after (m s))))
            (logged (m s) ++ logged (k a (store_after (m s)))).
Proof. intros H. unfold bind. rewrite H. reflexivity. Qed.

Lemma bind_inl {A B} (m : M A) (k : A -> M B) s e :
  result (m s) = inl e ->
  bind m k s = mkOutcome (inl e) (store_after (m s)) (logged (m s)).
Proof. intros H. unfold bind. rewrite H. reflexivity. Qed.

(** What a run of [get_tag] over a list of names does to the store. *)
Lemma mapM_get_tag_effect names :
  forall s,
    (exists ts, result (mapM get_tag names s) = inr ts /\ map tag_name ts = names) /\
    (exists added, tags (store_after (mapM get_tag names s)) = tags s ++ added) /\
    (forall name, In name names ->
                  In name (map tag_name (tags (store_after (mapM get_tag names s))))) /\
    components (store_after (mapM get_tag names s)) = components s /\
    io_pointers (store_after (mapM get_tag names s)) = io_pointers s /\
    component_runs (store_after (mapM get_tag names s)) = component_runs s /\
    next_run_id (store_after (mapM get_tag names s)) = next_run_id s.
Proof.
  induction names as [|name names IH]; intros s.
  - simpl. repeat split.
    + exists []. split; reflexivity.
    + exists []. rewrite app_nil_r. reflexivity.
    + intros name [].
  - destruct (get_tag_effect s name)
      as [[t [Ht [Hname Hin]]] [[added1 Hadd1] [Hc [Hp [Hr Hn]]]]].
    destruct (IH (store_after (get_tag name s)))
      as [[ts [Hts Hnames]] [[added2 Hadd2] [Hall [Hc2 [Hp2 [Hr2 Hn2]]]]]].
    cbn [mapM]. rewrite (bind_inr _ _ s t Ht). cbn [result store_after].
    rewrite (bind_inr _ _ _ ts Hts). cbn [result store_after ret].
    split; [|split; [|split; [|split; [|split; [|split]]]]].
    + exists (t :: ts). split; [reflexivity|]. simpl. rewrite Hname, Hnames. reflexivity.
    + exists (added1 ++ added2). rewrite Hadd2, Hadd1, app_assoc. reflexivity.
    + intros nm [<-|Hnm].
      * rewrite Hadd2. rewrite map_app. apply in_or_app. left.
        apply in_map_iff. exists t. split; assumption.
      * apply Hall. exact Hnm.
    + rewrite Hc2. exact Hc.
    + rewrite Hp2. exact Hp.
    + rewrite Hr2. exact Hr.
    + rewrite Hn2. exact Hn.
Qed.

Lemma find_of_In {A} (f : A -> bool) (l : list A) (a : A) :
  In a l -> f a = true -> exists a', find f l = Some a'.
Proof.
  intros Hin Hf. destruct (find f l) as [a'|] eqn:E; [exists a'; reflexivity|].
  pose proof (find_none f l E a Hin) as Hn. congruence.
Qed.

(** X5. [add_tags_to_component] on a component that exists returns
    normally; afterwards every tag name it was given is the name of a tag of
    the store, the tags the store had are still there, in place, followed by
    the ones created, and the pointers and the runs are untouched. *)
Theorem add_tags_to_component_registers_tags :
  forall (s : Store) (component_name' : string) (tags' : list string),
    (exists c, In c (components s) /\ comp_name c = component_name') ->
    let o := add_tags_to_component component_name' tags' s in
    result o = inr tt /\
    (forall name, In name tags' -> In name (map tag_name (tags (store_after o)))) /\
    (exists added, tags (store_after o) = tags s ++ added) /\
    io_pointers (store_after o) = io_pointers s /\
    component_runs (store_after o) = component_runs s.
Proof.
  intros s cn ts [c [Hc Hname]] o.
  destruct (find_of_In (fun c => String.eqb (comp_name c) cn) (components s) c Hc)
    as [c' Hfind]; [apply String.eqb_eq; exact Hname|].
  destruct (mapM_get_tag_effect ts s)
    as [[tos [Htos _]] [Hadd [Hall [_ [Hp [Hr _]]]]]].
  assert (Ho : o = mkOutcome (inr tt)
                 (mkStore (update_component cn (add_tags c' tos)
                                            (components (store_after (mapM get_tag ts s))))
                          (tags (store_after (mapM get_tag ts s)))
                          (io_pointers (store_after (mapM get_tag ts s)))
                          (component_runs (store_after (mapM get_tag ts s)))
                          (next_run_id (store_after (mapM get_tag ts s))))
                 (logged o)).
  { unfold o, add_tags_to_component.
    unfold bind at 1. unfold _get_component at 1. unfold bind at 1. simpl.
    rewrite Hfind. cbn [result store_after logged].
    rewrite (bind_inr _ _ s tos Htos). cbn [result store_after logged].
    reflexivity. }
  rewrite Ho. cbn [result store_after tags io_pointers component_runs].
  split; [reflexivity|]. split; [exact Hall|]. split; [exact Hadd|].
  split; assumption.
Qed.

Lemma add_tags_to_component_registers_tags_witness :
  (exists c, In c (components computation_store) /\ comp_name c = "test_component") /\
  let o := add_tags_to_component "test_component" ["tag1"; "tag1"; "tag2"]
                                 computation_store in
  result o = inr tt /\
  (forall name, In name ["tag1"; "tag1"; "tag2"] ->
                In name (map tag_name (tags (store_after o)))) /\
  (exists added, tags (store_after o) = tags computation_store ++ added) /\
  io_pointers (store_after o) = io_pointers computation_store /\
  component_runs (store_after o) = component_runs computation_store.
Proof.
  assert (H : exists c, In c (components computation_store) /\
                        comp_name c = "test_component").
  { eexists. split; [left; reflexivity | reflexivity]. }
  split; [exact H|].
  exact (add_tags_to_component_registers_tags computation_store "test_component"
           ["tag1"; "tag1"; "tag2"] H).
Defined.

(** ** Components: registering and looking up *)

Lemma find_app_some {A} (f : A -> bool) (l l' : list A) (a : A) :
  find f l = Some a -> find f (l ++ l') = Some a.
Proof.
  induction l as [|b l IH]; simpl; [discriminate|].
  destruct (f b); [trivial | exact IH].
Qed.

(** X6. The first registration of a name wins.  After
    [create_component(name, ...)], looking the name up finds a component
    with that name, and it is the component that had the name before the
    call, as it was, whenever there was one: a later registration never
    replaces or changes it.  The lookup of every other name gives what it
    gave before. *)
Theorem create_component_then_lookup :
  forall (s : Store) (name d o : string) (ts : list string),
    let s' := store_after (create_component name d o ts s) in
    (exists c, result (_get_component name s') = inr (Some c) /\
               comp_name c = name /\
               forall c0, result (_get_component name s) = inr (Some c0) -> c = c0) /\
    forall other, other <> name ->
                  result (_get_component other s') = result (_get_component other s).
Proof.
  intros s name d o ts s'. unfold s'.
  destruct (find (fun c => String.eqb (comp_name c) name) (components s)) as [c|] eqn:E.
  - rewrite (create_component_existing s name d o ts c E).
    unfold _get_component, bind, get_store, ret. simpl. rewrite E.
    split; [|intros; reflexivity].
    exists c. split; [reflexivity|]. split.
    + apply find_some in E. destruct E as [_ E]. apply String.eqb_eq. exact E.
    + intros c0 [= <-]. reflexivity.
  - rewrite (create_component_fresh s name d o ts E).
    unfold _get_component, bind, get_store, ret. simpl. rewrite E. split.
    + rewrite (find_app_none _ _ _ E). simpl. rewrite String.eqb_refl.
      eexists. split; [reflexivity|]. split; [reflexivity|]. intros c0 [=].
    + intros other Hother.
      destruct (find (fun c => String.eqb (comp_name c) other) (components s))
        as [c'|] eqn:E'.
      * rewrite (find_app_some _ _ _ _ E'). reflexivity.
      * rewrite (find_app_none _ _ _ E'). simpl.
        destruct (String.eqb_spec name other) as [Heq|_]; [congruence | reflexivity].
Qed.

Lemma create_component_then_lookup_witness :
  let s' := store_after (create_component "test_component" "changed" "ann" ["nightly"]
                                          computation_store) in
  "etl" <> "test_component" /\
  result (_get_component "test_component" s') =
    inr (Some (mkComponent "test_component" "test_description" "shreya" [])) /\
  result (_get_component "etl" s') = result (_get_component "etl" computation_store).
Proof.
  intros s'.
  assert (Hne : "etl" <> "test_component") by discriminate.
  split; [exact Hne|].
  destruct (create_component_then_lookup computation_store "test_component" "changed"
              "ann" ["nightly"]) as [[c [Hc [_ Hsame]]] Hother].
  split; [|exact (Hother "etl" Hne)].
  fold s' in Hc. rewrite Hc.
  rewrite (Hsame (mkComponent "test_component" "test_description" "shreya" []) eq_refl).
  reflexivity.
Defined.

(** X7. A component registered under a new name is found by its owner:
    after the call, [get_components_with_owner] for the owner passed returns
    what it returned before followed by one more component, which has the
    name and the owner of the call; the query for any other owner returns
    what it returned before. *)
Theorem create_component_then_owner_query :
  forall (s : Store) (name d o : string) (ts : list string),
    (forall c, In c (components s) -> comp_name c <> name) ->
    let s' := store_after (create_component name d o ts s) in
    (exists before c,
        result (get_components_with_owner o s) = inr before /\
        result (get_components_with_owner o s') = inr (before ++ [c]) /\
        comp_name c = name /\ owner c = o) /\
    (forall other, other <> o ->
                   result (get_components_with_owner other s') =
                   result (get_components_with_owner other s)).
Proof.
  intros s name d o ts Hnew s'.
  assert (E : find (fun c => String.eqb (comp_name c) name) (components s) = None).
  { destruct (find (fun c => String.eqb (comp_name c) name) (components s)) as [c|] eqn:E;
      [|reflexivity].
    apply find_some in E. destruct E as [Hin Hname]. apply String.eqb_eq in Hname.
    exfalso. exact (Hnew c Hin Hname). }
  unfold s'. rewrite (create_component_fresh s name d o ts E).
  unfold get_components_with_owner, bind, get_store, ret.
  simpl. split.
  - eexists. eexists. split; [reflexivity|].
    rewrite filter_app. simpl. rewrite String.eqb_refl.
    split; [reflexivity|]. split; reflexivity.
  - intros other Hother. rewrite filter_app. simpl.
    destruct (String.eqb_spec o other) as [Heq|_]; [congruence|].
    rewrite app_nil_r. reflexivity.
Qed.

Lemma create_component_then_owner_query_witness :
  let s' := store_after (create_component "etl" "extract" "ann" ["nightly"; "prod"]
                                          computation_store) in
  (forall c, In c (components computation_store) -> comp_name c <> "etl") /\
  (exists c, result (get_components_with_owner "ann" s') = inr [c] /\
             comp_name c = "etl" /\ owner c = "ann") /\
  result (get_components_with_owner "shreya" s') =
    result (get_components_with_owner "shreya" computation_store).
Proof.
  intros s'.
  assert (H : forall c, In c (components computation_store) -> comp_name c <> "etl").
  { intros c Hc. simpl in Hc. destruct Hc as [<-|[]]. discriminate. }
  split; [exact H|].
  destruct (create_component_then_owner_query computation_store "etl" "extract" "ann"
              ["nightly"; "prod"] H) as [[before [c [Hb [Ha [Hn Ho]]]]] Hother].
  split.
  - exists c. injection Hb as <-. split; [exact Ha|]. split; [exact Hn | exact Ho].
  - apply Hother. discriminate.
Defined.

(** ** Dependency resolution *)

Lemma outerjoin_outputs_cons cr runs :
  outerjoin_outputs (cr :: runs) =
  match outputs cr with
  | [] => [(cr, None)]
  | ps => map (fun p => (cr, Some p)) ps
  end ++ outerjoin_outputs runs.
Proof. reflexivity. Qed.

Lemma outerjoin_outputs_with_start f runs :
  outerjoin_outputs (map (with_start f) runs) =
  map (fun row => (with_start f (fst row), snd row)) (outerjoin_outputs runs).
Proof.
  induction runs as [|cr runs IH]; [reflexivity|].
  cbn [map]. rewrite !outerjoin_outputs_cons, IH, map_app. f_equal.
  cbn [with_start outputs]. destruct (outputs cr) as [|p ps]; [reflexivity|].
  rewrite map_map. reflexivity.
Qed.

Lemma filter_name_in_with_start f ids rows :
  filter (name_in_ ids) (map (fun row => (with_start f (fst row), snd row)) rows) =
  map (fun row => (with_start f (fst row), snd row)) (filter (name_in_ ids) rows).
Proof.
  induction rows as [|row rows IH]; [reflexivity|].
  cbn [map filter].
  assert (E : name_in_ ids (with_start f (fst row), snd row) = name_in_ ids row)
    by reflexivity.
  rewrite E. destruct (name_in_ ids row); cbn [map]; rewrite IH; reflexivity.
Qed.

Lemma matches_query_with_start f s ids :
  map fst (matches_query (retimed f s) ids) =
  map (with_start f) (map fst (matches_query s ids)).
Proof.
  unfold matches_query, retimed. cbn [component_runs].
  rewrite outerjoin_outputs_with_start, filter_name_in_with_start.
  rewrite !map_map. reflexivity.
Qed.

Lemma run_ids_with_start f l : run_ids (map (with_start f) l) = run_ids l.
Proof.
  unfold run_ids. induction l as [|r l IH]; [reflexivity|].
  cbn [map flat_map]. rewrite IH. reflexivity.
Qed.

(** X8. The start timestamps of the runs in the store play no part in
    dependency resolution: replace them by any others, and
    [set_dependencies_from_inputs] gives a run the same dependencies. *)
Theorem set_dependencies_from_inputs_ignores_timestamps :
  forall (f : ComponentRun -> option Z) (s : Store) (r : ComponentRun),
    result (set_dependencies_from_inputs r (retimed f s)) =
    result (set_dependencies_from_inputs r s).
Proof.
  intros f s r. unfold set_dependencies_from_inputs, bind, get_store. simpl.
  rewrite matches_query_with_start.
  destruct (map fst (matches_query s (map iop_name (inputs r)))) as [|m ms] eqn:E.
  - reflexivity.
  - cbn [map]. simpl. unfold set_upstream. do 2 f_equal.
    change (with_start f m :: map (with_start f) ms) with (map (with_start f) (m :: ms)).
    rewrite run_ids_with_start. reflexivity.
Qed.

(** X9. [set_dependencies_from_inputs] only reads the store.  When no run
    of the table has an output named like an input of the run, the run is
    returned as it came, its dependencies included; otherwise its
    dependencies become the ids of all the runs of the table that have such
    an output, and of no other run. *)
Theorem set_dependencies_from_inputs_all_producers :
  forall (s : Store) (r : ComponentRun),
    exists r',
      set_dependencies_from_inputs r s = mkOutcome (inr r') s [] /\
      ((forall cr, In cr (component_runs s) ->
                   forall p, In p (outputs cr) ->
                             ~ In (iop_name p) (map iop_name (inputs r))) ->
       r' = r) /\
      ((exists cr p, In cr (component_runs s) /\ In p (outputs cr) /\
                     In (iop_name p) (map iop_name (inputs r))) ->
       forall i, In i (dependencies r') <->
                 exists cr p, In cr (component_runs s) /\ id cr = Some i /\
                              In p (outputs cr) /\
                              In (iop_name p) (map iop_name (inputs r))).
Proof. exact set_dependencies_from_inputs_every_match. Qed.

Lemma set_dependencies_from_inputs_all_producers_witness :
  let s := computation_store in
  let r := new_run "report" 50 51 [mkIOPointer "iop_1" FILE_BACKED] [] in
  (exists cr p, In cr (component_runs s) /\ In p (outputs cr) /\
                In (iop_name p) (map iop_name (inputs r))) /\
  exists r', result (set_dependencies_from_inputs r s) = inr r' /\
             (In 1%nat (dependencies r') /\ In 2%nat (dependencies r') /\
              ~ In 3%nat (dependencies r')).
Proof.
  intros s r.
  assert (H : exists cr p, In cr (component_runs s) /\ In p (outputs cr) /\
                           In (iop_name p) (map iop_name (inputs r))).
  { exists (row s 1), (mkIOPointer "iop_1" FILE_BACKED).
    split; [left; reflexivity|]. split; left; reflexivity. }
  split; [exact H|].
  destruct (set_dependencies_from_inputs_all_producers s r) as [r' [Hr [_ Hdeps]]].
  exists r'. split; [rewrite Hr; reflexivity|].
  specialize (Hdeps H). split; [|split].
  - apply Hdeps. exists (row s 1), (mkIOPointer "iop_1" FILE_BACKED).
    split; [left; reflexivity|]. split; [reflexivity|]. split; left; reflexivity.
  - apply Hdeps. exists (row s 2), (mkIOPointer "iop_1" FILE_BACKED).
    split; [right; left; reflexivity|]. split; [reflexivity|]. split; left; reflexivity.
  - intros H3. apply Hdeps in H3. destruct H3 as [cr [p [Hcr [Hid [Hp Hname]]]]].
    simpl in Hcr. destruct Hcr as [<-|[<-|[<-|[<-|[]]]]]; try discriminate Hid.
    simpl in Hp. destruct Hp as [<-|[<-|[]]]; simpl in Hname;
      destruct Hname as [Hname|[]]; discriminate Hname.
Defined.

(** ** Committing runs *)

(** The row a complete run becomes when it is committed to [s]. *)
Lemma commit_complete_run_store s r :
  success (check_completeness r) = true -> id r = None ->
  store_after (commit_component_run r s) =
  mkStore (components s) (tags s)
          (store_pointers_by_name (io_pointers s) (inputs r ++ outputs r))
          (component_runs s ++
             [mkComponentRun (Some (next_run_id s)) (component_name r)
                (start_timestamp r) (end_timestamp r) (inputs r) (outputs r)
                (dependencies r)])
          (S (next_run_id s)).
Proof. intros H Hid. rewrite (commit_complete_run s r H Hid). reflexivity. Qed.

(** X10. A committed run shows up in the history of its component and of no
    other.  After a complete run without id is committed, the unlimited
    history of its component is a rearrangement of the history before plus
    one row, which carries the next id of the sequence and the fields of the
    run; the history of every other component is what it was. *)
Theorem commit_component_run_then_get_history :
  forall (s : Store) (r : ComponentRun),
    success (check_completeness r) = true -> id r = None ->
    let s' := store_after (commit_component_run r s) in
    let committed := mkComponentRun (Some (next_run_id s)) (component_name r)
                       (start_timestamp r) (end_timestamp r) (inputs r) (outputs r)
                       (dependencies r) in
    (exists before after,
        result (get_history (component_name r) (Some None) s) = inr before /\
        result (get_history (component_name r) (Some None) s') = inr after /\
        Permutation after (committed :: before)) /\
    (forall other limit, other <> component_name r ->
                         result (get_history other limit s') =
                         result (get_history other limit s)).
Proof.
  intros s r Hok Hid s' committed. unfold s'.
  rewrite (commit_complete_run_store s r Hok Hid). fold committed. split.
  - eexists. eexists. split; [reflexivity|]. split; [reflexivity|].
    simpl. rewrite filter_app. simpl. rewrite String.eqb_refl.
    eapply perm_trans; [apply order_by_perm|].
    eapply perm_trans; [apply Permutation_app_comm|]. simpl.
    apply perm_skip. apply Permutation_sym. apply order_by_perm.
  - intros other limit Hother.
    unfold get_history, bind, get_store. simpl. rewrite filter_app. simpl.
    destruct (String.eqb_spec (component_name r) other) as [Heq|_]; [congruence|].
    rewrite app_nil_r.
    destruct (with_default (Some 10%Z) limit) as [n|]; [destruct (n <? 0)%Z|];
      reflexivity.
Qed.

Lemma commit_component_run_then_get_history_witness :
  let s := computation_store in
  let r := new_run "report" 50 51 [] [mkIOPointer "report.csv" FILE_BACKED] in
  let s' := store_after (commit_component_run r s) in
  success (check_completeness r) = true /\ id r = None /\
  (exists after,
      result (get_history "report" (Some None) s') = inr after /\
      Permutation after
        [mkComponentRun (Some 5%nat) "report" (Some 50%Z) (Some 51%Z) []
                        [mkIOPointer "report.csv" FILE_BACKED] []]) /\
  result (get_history "test_component" None s') =
    result (get_history "test_component" None s).
Proof.
  intros s r s'.
  split; [reflexivity|]. split; [reflexivity|].
  destruct (commit_component_run_then_get_history s r eq_refl eq_refl)
    as [[before [after [Hb [Ha Hperm]]]] Hother].
  split.
  - exists after. split; [exact Ha|].
    injection Hb as <-. exact Hperm.
  - apply Hother. discriminate.
Defined.

(** X11. A committed producer is found by every later consumer: once a
    complete run without id is committed, resolving a run one of whose
    inputs is named like one of its outputs puts the id the commit gave it
    among the dependencies of that run. *)
Theorem committed_producer_becomes_dependency :
  forall (s : Store) (producer consumer : ComponentRun) (p : IOPointer),
    success (check_completeness producer) = true -> id producer = None ->
    In p (outputs producer) ->
    In (iop_name p) (map iop_name (inputs consumer)) ->
    let s' := store_after (commit_component_run producer s) in
    exists consumer',
      result (set_dependencies_from_inputs consumer s') = inr consumer' /\
      In (next_run_id s) (dependencies consumer').
Proof.
  intros s producer consumer p Hok Hid Hp Hname s'.
  destruct (set_dependencies_from_inputs_every_match s' consumer)
    as [c' [Hc [_ Hdeps]]].
  exists c'. split; [rewrite Hc; reflexivity|].
  pose proof (commit_complete_run_store s producer Hok Hid) as Hs'. fold s' in Hs'.
  assert (Hrow : In (mkComponentRun (Some (next_run_id s)) (component_name producer)
                       (start_timestamp producer) (end_timestamp producer)
                       (inputs producer) (outputs producer) (dependencies producer))
                    (component_runs s')).
  { rewrite Hs'. simpl. apply in_or_app. right. left. reflexivity. }
  apply Hdeps.
  - eexists. exists p. split; [exact Hrow|]. split; [exact Hp | exact Hname].
  - eexists. exists p. split; [exact Hrow|].
    split; [reflexivity|]. split; [exact Hp | exact Hname].
Qed.

Lemma committed_producer_becomes_dependency_witness :
  let s := computation_store in
  let out := mkIOPointer "report.csv" FILE_BACKED in
  let producer := new_run "report" 50 51 [] [out] in
  let consumer := new_run "mail" 60 61 [out] [] in
  success (check_completeness producer) = true /\ id producer = None /\
  In out (outputs producer) /\
  In (iop_name out) (map iop_name (inputs consumer)) /\
  exists consumer',
    result (set_dependencies_from_inputs consumer
              (store_after (commit_component_run producer s))) = inr consumer' /\
    In 5%nat (dependencies consumer').
Proof.
  intros s out producer consumer.
  split; [reflexivity|]. split; [reflexivity|].
  split; [left; reflexivity|]. split; [left; reflexivity|].
  exact (committed_producer_becomes_dependency s producer consumer out
           eq_refl eq_refl (or_introl eq_refl) (or_introl eq_refl)).
Defined.

(** ** Histories built by resolving, then committing *)

Lemma set_dependencies_from_inputs_ranked s r :
  well_ranked s ->
  (forall d, In d (dependencies r) -> (d < next_run_id s)%nat) ->
  exists r',
    set_dependencies_from_inputs r s = mkOutcome (inr r') s [] /\
    id r' = id r /\ component_name r' = component_name r /\
    (forall d, In d (dependencies r') -> (d < next_run_id s)%nat).
Proof.
  intros Hs Hr. unfold set_dependencies_from_inputs, bind, get_store. simpl.
  pose proof (matches_query_runs s (map iop_name (inputs r))) as Hq.
  destruct (map fst (matches_query s (map iop_name (inputs r)))) as [|m ms].
  - exists r. repeat split. exact Hr.
  - eexists. split; [reflexivity|]. split; [reflexivity|]. split; [reflexivity|].
    intros d Hd. unfold set_upstream in Hd. cbn [dependencies] in Hd.
    apply nodup_In in Hd. apply run_ids_In in Hd. destruct Hd as [cr [Hcr Hid]].
    apply Hq in Hcr. destruct Hcr as [Hcr _].
    destruct (Hs cr Hcr) as [i [Hi [Hlt _]]]. congruence.
Qed.

Lemma commit_component_run_ranked s r :
  well_ranked s -> id r = None ->
  (forall d, In d (dependencies r) -> (d < next_run_id s)%nat) ->
  well_ranked (store_after (commit_component_run r s)).
Proof.
  intros Hs Hid Hr.
  destruct (success (check_completeness r)) eqn:Hok.
  - rewrite (commit_complete_run_store s r Hok Hid). intros x Hx. simpl in *.
    apply in_app_or in Hx. destruct Hx as [Hx|[<-|[]]].
    + destruct (Hs x Hx) as [i [Hi [Hlt Hdeps]]].
      exists i. split; [exact Hi|]. split; [lia | exact Hdeps].
    + exists (next_run_id s). split; [reflexivity|]. split; [lia | exact Hr].
  - rewrite (commit_incomplete_run s r Hok). exact Hs.
Qed.

(** X12. Resolving a run that has no id yet and then committing it keeps
    the history well ranked: if every run of the store has an id below the
    next id and depends only on runs with smaller ids, the same holds after
    [set_dependencies_from_inputs] followed by [commit_component_run], for a
    complete run and for an incomplete one alike. *)
Theorem resolve_then_commit_keeps_well_ranked :
  forall (s : Store) (r : ComponentRun),
    well_ranked s -> id r = None ->
    (forall d, In d (dependencies r) -> (d < next_run_id s)%nat) ->
    well_ranked (store_after (resolve_and_commit r s)).
Proof.
  intros s r Hs Hid Hr.
  destruct (set_dependencies_from_inputs_ranked s r Hs Hr)
    as [r' [Hr' [Hid' [_ Hdeps']]]].
  unfold resolve_and_commit.
  assert (Hres : result (set_dependencies_from_inputs r s) = inr r')
    by (rewrite Hr'; reflexivity).
  rewrite (bind_inr _ _ s r' Hres). rewrite Hr'. cbn [store_after].
  apply commit_component_run_ranked; [exact Hs | congruence | exact Hdeps'].
Qed.

Lemma empty_store_well_ranked : well_ranked empty_store.
Proof. intros r []. Qed.

Lemma resolve_then_commit_keeps_well_ranked_witness :
  let r := new_run "train" 1 2 [mkIOPointer "data.csv" FILE_BACKED]
                   [mkIOPointer "model.pkl" FILE_BACKED] in
  well_ranked empty_store /\ id r = None /\
  (forall d, In d (dependencies r) -> (d < next_run_id empty_store)%nat) /\
  well_ranked (store_after (resolve_and_commit r empty_store)).
Proof.
  intros r.
  assert (Hr : forall d, In d (dependencies r) -> (d < next_run_id empty_store)%nat)
    by (intros d []).
  split; [exact empty_store_well_ranked|]. split; [reflexivity|]. split; [exact Hr|].
  exact (resolve_then_commit_keeps_well_ranked empty_store r
           empty_store_well_ranked eq_refl Hr).
Defined.

Lemma find_run_id s i r : find_run s i = Some r -> id r = Some i.
Proof.
  unfold find_run. intros H. apply find_some in H. destruct H as [_ H].
  unfold has_id in H. destruct (id r) as [j|]; [|discriminate].
  apply Nat.eqb_eq in H. congruence.
Qed.

Lemma well_ranked_acyclic s : well_ranked s -> acyclic s.
Proof.
  intros Hs. apply acyclic_by_rank with rank_by_id.
  intros a b Ha Hab. destruct (Hs a Ha) as [i [Hi [_ Hdeps]]].
  unfold dep_edge, load_dependencies in Hab. apply in_flat_map in Hab.
  destruct Hab as [d [Hd Hb]].
  destruct (find_run s d) as [r|] eqn:E; [|destruct Hb].
  destruct Hb as [<-|[]]. apply find_run_id in E.
  unfold rank_by_id. rewrite E, Hi. exact (Hdeps d Hd).
Qed.

(** X13. On a well-ranked history the dependency graph has no cycle and
    every walk terminates: from whatever run and depth [_traverse] starts, a
    recursion budget of one more than the number of runs is enough, and every
    larger budget gives the same list. *)
Theorem well_ranked_walk_terminates :
  forall (s : Store) (start : ComponentRun) (depth : nat)
         (node_list : list (nat * ComponentRun)),
    well_ranked s ->
    acyclic s /\
    exists l, forall fuel, (List.length (component_runs s) < fuel)%nat ->
                           _traverse fuel s start depth node_list = Some l.
Proof.
  intros s start depth node_list Hs.
  pose proof (well_ranked_acyclic s Hs) as Hacyc. split; [exact Hacyc|].
  destruct (no_cycle_terminates s start depth node_list
              (acyclic_no_cycle_reachable s start Hacyc)) as [l Hl].
  exists l. intros fuel Hfuel.
  apply (_traverse_more_fuel (S (List.length (component_runs s))) fuel); [lia | exact Hl].
Qed.

Lemma computation_store_well_ranked : well_ranked computation_store.
Proof.
  intros r Hr. simpl in Hr.
  destruct Hr as [<-|[<-|[<-|[<-|[]]]]]; eexists; (split; [reflexivity|]);
    (split; [simpl; lia|]); simpl; intros d Hd;
    repeat (destruct Hd as [<-|Hd]; [lia|]); destruct Hd.
Qed.

Lemma well_ranked_walk_terminates_witness :
  well_ranked computation_store /\
  acyclic computation_store /\
  exists l, forall fuel, (List.length (component_runs computation_store) < fuel)%nat ->
                         _traverse fuel computation_store (row computation_store 4) 1 []
                         = Some l.
Proof.
  split; [exact computation_store_well_ranked|].
  exact (well_ranked_walk_terminates computation_store (row computation_store 4) 1 []
           computation_store_well_ranked).
Defined.

(** ** What the walk records *)

(** X14. [_traverse] appends to the list it is given the pre-order listing
    of the node -- the node at its depth, then, for each dependency in order,
    the listing of that dependency one level deeper -- and it runs out of
    budget exactly when that listing needs more than the budget. *)
Theorem _traverse_appends_preorder_listing :
  forall (fuel : nat) (s : Store) (node : ComponentRun) (depth : nat)
         (node_list : list (nat * ComponentRun)),
    _traverse fuel s node depth node_list =
    option_map (app node_list) (preorder fuel s node depth).
Proof. exact _traverse_is_preorder. Qed.

Lemma all_some_map_Forall2 {A B} (g : A -> option B) (l : list A) :
  forall below, all_some (map g l) = Some below ->
                Forall2 (fun a b => g a = Some b) l below.
Proof.
  induction l as [|a l IH]; simpl; intros below H.
  - injection H as <-. constructor.
  - destruct (g a) as [b|] eqn:Ea; [|discriminate].
    destruct (all_some (map g l)) as [bs|]; [|discriminate].
    injection H as <-. constructor; [exact Ea | apply IH; reflexivity].
Qed.

Lemma Forall2_In_l {A B} (R : A -> B -> Prop) l l' :
  Forall2 R l l' -> forall a, In a l -> exists b, In b l' /\ R a b.
Proof.
  induction 1 as [|x y l l' Hxy _ IH]; intros a Ha; [destruct Ha|].
  destruct Ha as [<-|Ha].
  - exists y. split; [left; reflexivity | exact Hxy].
  - destruct (IH a Ha) as [b [Hb Hab]]. exists b. split; [right; exact Hb | exact Hab].
Qed.

Lemma Forall2_In_r {A B} (R : A -> B -> Prop) l l' :
  Forall2 R l l' -> forall b, In b l' -> exists a, In a l /\ R a b.
Proof.
  induction 1 as [|x y l l' Hxy _ IH]; intros b Hb; [destruct Hb|].
  destruct Hb as [<-|Hb].
  - exists x. split; [left; reflexivity | exact Hxy].
  - destruct (IH b Hb) as [a [Ha Hab]]. exists a. split; [right; exact Ha | exact Hab].
Qed.

Lemma preorder_hops fuel :
  forall s node depth l,
    preorder fuel s node depth = Some l ->
    forall d r, In (d, r) l <-> exists n, d = (depth + n)%nat /\ hops s n node r.
Proof.
  induction fuel as [|fuel IH]; intros s node depth l H d r; [discriminate|].
  cbn [preorder] in H.
  destruct (all_some (map (fun neighbor => preorder fuel s neighbor (depth + 1))
                          (load_dependencies s node))) as [below|] eqn:E;
    [|discriminate].
  injection H as <-. apply all_some_map_Forall2 in E. split.
  - intros [Hhead|Htail].
    + injection Hhead as <- <-. exists 0%nat. split; [lia | constructor].
    + apply in_concat in Htail. destruct Htail as [lb [Hlb Hin]].
      destruct (Forall2_In_r _ _ _ E lb Hlb) as [b [Hb Hpre]].
      apply (IH s b (depth + 1)%nat lb Hpre d r) in Hin.
      destruct Hin as [n [Hd Hn]]. exists (S n). split; [lia|].
      apply hops_next with b; [exact Hb | exact Hn].
  - intros [n [Hd Hn]]. inversion Hn as [a | n' a b c Hab Hbc]; subst.
    + left. f_equal. lia.
    + right. destruct (Forall2_In_l _ _ _ E b Hab) as [lb [Hlb Hpre]].
      apply in_concat. exists lb. split; [exact Hlb|].
      apply (IH s b (depth + 1)%nat lb Hpre). exists n'. split; [lia | exact Hbc].
Qed.

(** X15. The walk records exactly the runs that can be reached, each at the
    depth of its distance: when [_traverse] returns, what it appended holds
    the pair [(d, r)] if and only if [r] is [d - depth] dependency edges away
    from the start node along some path; a run reached along several paths
    is recorded for each of them. *)
Theorem _traverse_records_runs_at_their_distance :
  forall (fuel : nat) (s : Store) (node : ComponentRun) (depth : nat)
         (node_list l : list (nat * ComponentRun)),
    _traverse fuel s node depth node_list = Some l ->
    exists walk,
      l = node_list ++ walk /\
      forall d r, In (d, r) walk <->
                  exists n, d = (depth + n)%nat /\ hops s n node r.
Proof.
  intros fuel s node depth node_list l H.
  rewrite _traverse_is_preorder in H.
  destruct (preorder fuel s node depth) as [walk|] eqn:E; [|discriminate].
  injection H as <-. exists walk. split; [reflexivity|].
  exact (preorder_hops fuel s node depth walk E).
Qed.

Lemma _traverse_records_runs_at_their_distance_witness :
  let s := computation_store in
  let l := [(1%nat, row s 4); (2%nat, row s 3); (3%nat, row s 1); (3%nat, row s 2)] in
  _traverse 10 s (row s 4) 1 [] = Some l /\
  exists walk,
    l = [] ++ walk /\
    forall d r, In (d, r) walk <->
                exists n, d = (1 + n)%nat /\ hops s n (row s 4) r.
Proof.
  intros s l.
  assert (H : _traverse 10 s (row s 4) 1 [] = Some l) by reflexivity.
  split; [exact H|].
  exact (_traverse_records_runs_at_their_distance 10 s (row s 4) 1 [] l H).
Defined.

(** ** Where [trace] starts *)

Lemma filter_pairs_with_run output_id (r : ComponentRun) (ps : list IOPointer) :
  filter (fun row => String.eqb (iop_name (snd row)) output_id) (map (pair r) ps) =
  map (pair r) (filter (fun p => String.eqb (iop_name p) output_id) ps).
Proof.
  induction ps as [|p ps IH]; [reflexivity|].
  cbn [map filter snd]. destruct (String.eqb (iop_name p) output_id);
    cbn [map]; rewrite IH; reflexivity.
Qed.

Lemma trace_query_first_run s output_id root rest p :
  component_runs s = root :: rest ->
  In p (io_pointers s) -> iop_name p = output_id ->
  trace_query s output_id = Some root.
Proof.
  intros Hruns Hp Hname. unfold trace_query. rewrite Hruns.
  cbn [list_prod]. rewrite filter_app, map_app, filter_pairs_with_run.
  destruct (filter (fun p => String.eqb (iop_name p) output_id) (io_pointers s))
    as [|p0 ps] eqn:E.
  - exfalso.
    assert (Hin : In p (filter (fun p => String.eqb (iop_name p) output_id)
                               (io_pointers s))).
    { apply filter_In. split; [exact Hp | apply String.eqb_eq; exact Hname]. }
    rewrite E in Hin. exact Hin.
  - reflexivity.
Qed.

(** X16. [trace] does not look for the run that produced the artifact: as
    soon as the store has a pointer named [output_id], the walk starts at the
    first run of the run table, whichever run that is, and [trace] returns
    the walk from that run at depth 1 (or runs out of budget with it); the
    store is left as it was. *)
Theorem trace_walks_from_first_run :
  forall (fuel : nat) (s : Store) (output_id : string)
         (root : ComponentRun) (rest : list ComponentRun),
    component_runs s = root :: rest ->
    (exists p, In p (io_pointers s) /\ iop_name p = output_id) ->
    trace fuel output_id s =
    option_map (fun node_list =>
                  mkOutcome (inr node_list) s [Stdout_printing_trace output_id])
               (_traverse fuel s root 1 []).
Proof.
  intros fuel s output_id root rest Hruns [p [Hp Hname]].
  unfold trace. rewrite (trace_query_first_run s output_id root rest p Hruns Hp Hname).
  destruct (_traverse fuel s root 1 []); reflexivity.
Qed.

Lemma trace_walks_from_first_run_witness :
  let s := computation_store in
  component_runs s = row s 1 :: [row s 2; row s 3; row s 4] /\
  (exists p, In p (io_pointers s) /\ iop_name p = "iop_2") /\
  trace 10 "iop_2" s =
  option_map (fun node_list =>
                mkOutcome (inr node_list) s [Stdout_printing_trace "iop_2"])
             (_traverse 10 s (row s 1) 1 []).
Proof.
  intros s.
  assert (Hruns : component_runs s = row s 1 :: [row s 2; row s 3; row s 4])
    by reflexivity.
  assert (Hp : exists p, In p (io_pointers s) /\ iop_name p = "iop_2").
  { exists (mkIOPointer "iop_2" FILE_BACKED). split; [right; left; reflexivity|].
    reflexivity. }
  split; [exact Hruns|]. split; [exact Hp|].
  exact (trace_walks_from_first_run 10 s "iop_2" (row s 1)
           [row s 2; row s 3; row s 4] Hruns Hp).
Defined.

(** ** Output identifiers: printing and reading numbers *)

Lemma parse_digits_of_uint_acc d :
  forall acc, parse_digits (NilEmpty.string_of_uint d) (Zpos acc) =
              Some (Zpos (Pos.of_uint_acc d acc)).
Proof.
  induction d; intros acc; cbn [NilEmpty.string_of_uint parse_digits Pos.of_uint_acc];
    [reflexivity|..];
    match goal with
    | |- context [digit_of_ascii ?c] =>
        let v := eval vm_compute in (digit_of_ascii c) in
        change (digit_of_ascii c) with v
    end; cbv iota beta; rewrite <- IHd; f_equal; lia.
Qed.

Lemma parse_digits_of_uint d :
  parse_digits (NilEmpty.string_of_uint d) 0 = Some (Z.of_N (Pos.of_uint d)).
Proof.
  induction d; cbn [NilEmpty.string_of_uint parse_digits Pos.of_uint];
    [reflexivity|..];
    match goal with
    | |- context [digit_of_ascii ?c] =>
        let v := eval vm_compute in (digit_of_ascii c) in
        change (digit_of_ascii c) with v
    end; cbv iota beta;
    first [ exact IHd
          | match goal with
            | |- parse_digits _ ?z = _ =>
                let v := eval vm_compute in z in change z with v
            end; rewrite parse_digits_of_uint_acc; reflexivity ].
Qed.

(** [int] reads back the number [f"{i}"] printed. *)
Lemma py_int_py_str z : py_int (py_str z) = inr z.
Proof.
  unfold py_str. destruct z as [|p|p]; [reflexivity| |].
  - cbn [Z.to_int NilZero.string_of_int].
    pose proof (DecimalPos.Unsigned.to_uint_nonnil p) as Hnn.
    pose proof (DecimalPos.Unsigned.of_to p) as Hot.
    pose proof (parse_digits_of_uint (Pos.to_uint p)) as Hp. rewrite Hot in Hp.
    unfold NilZero.string_of_uint.
    destruct (Pos.to_uint p) as [|u|u|u|u|u|u|u|u|u|u] eqn:E; [congruence|..];
      cbn [NilEmpty.string_of_uint] in *; unfold py_int;
      match goal with
      | |- context [Ascii.eqb ?c "-"] =>
          change (Ascii.eqb c "-") with false; change (Ascii.eqb c "+") with false
      end; cbv iota; rewrite Hp; reflexivity.
  - cbn [Z.to_int NilZero.string_of_int].
    pose proof (DecimalPos.Unsigned.to_uint_nonnil p) as Hnn.
    pose proof (DecimalPos.Unsigned.of_to p) as Hot.
    pose proof (parse_digits_of_uint (Pos.to_uint p)) as Hp. rewrite Hot in Hp.
    unfold NilZero.string_of_uint.
    destruct (Pos.to_uint p) as [|u|u|u|u|u|u|u|u|u|u] eqn:E; [congruence|..];
      cbn [NilEmpty.string_of_uint] in *; unfold py_int;
      change (Ascii.eqb "-" "-") with true; cbv iota; rewrite Hp; reflexivity.
Qed.

Lemma py_int_error s e : py_int s = inl e -> e = ValueError_invalid_literal_for_int s.
Proof.
  unfold py_int. destruct s as [|c rest]; [intros [= <-]; reflexivity|].
  destruct (Ascii.eqb c "-").
  - destruct rest; [intros [= <-]; reflexivity|].
    destruct (parse_digits _ 0); [discriminate | intros [= <-]; reflexivity].
  - destruct (Ascii.eqb c "+").
    + destruct rest; [intros [= <-]; reflexivity|].
      destruct (parse_digits _ 0); [discriminate | intros [= <-]; reflexivity].
    + destruct (parse_digits _ 0); [discriminate | intros [= <-]; reflexivity].
Qed.

(** ** Output identifiers: every count, every store *)

Lemma reads_as_int_true p : reads_as_int p = true -> py_int (iop_name p) = inr (int_name p).
Proof.
  unfold reads_as_int, int_name. destruct (py_int (iop_name p)); [discriminate|reflexivity].
Qed.

Lemma reads_as_int_false p :
  reads_as_int p = false ->
  py_int (iop_name p) = inl (ValueError_invalid_literal_for_int (iop_name p)).
Proof.
  unfold reads_as_int. destruct (py_int (iop_name p)) as [e|v] eqn:E; [|discriminate].
  intros _. rewrite (py_int_error _ _ E). reflexivity.
Qed.

(** The number after the largest number an endpoint pointer is named with. *)
Lemma create_output_ids_returns_block s n :
  Forall (fun p => py_int (iop_name p) = inr (int_name p))
         (filter is_endpoint (io_pointers s)) ->
  exists start,
    create_output_ids n s =
      mkOutcome (inr (map py_str (py_range start (start + with_default 1%Z n)))) s [] /\
    forall p, In p (filter is_endpoint (io_pointers s)) -> (int_name p < start)%Z.
Proof.
  intros Hall. unfold create_output_ids, bind, get_store. simpl.
  change (filter (fun p => PointerTypeEnum_eqb (pointer_type p) ENDPOINT) (io_pointers s))
    with (filter is_endpoint (io_pointers s)).
  destruct (filter is_endpoint (io_pointers s)) as [|res0 res'] eqn:Eres.
  - exists 0%Z. split; [reflexivity|]. intros p [].
  - inversion Hall as [|? ? H0 Hrest]; subst.
    unfold max_by_int_name, bind. rewrite H0. simpl.
    rewrite (mapM_lift_py_int _ _ Hrest). simpl.
    destruct (max_by_key_spec int_name res' res0) as [Hin Hmax].
    set (m := fst (max_by_key (res0, int_name res0) (combine res' (map int_name res'))))
      in *.
    assert (Hm : py_int (iop_name m) = inr (int_name m)).
    { rewrite Forall_forall in Hall. apply Hall. exact Hin. }
    rewrite Hm. simpl. exists (int_name m + 1)%Z. split; [reflexivity|].
    intros p Hp. specialize (Hmax p Hp). lia.
Qed.

Lemma lift_outcome {A} (r : Exc + A) s : lift r s = mkOutcome r s [].
Proof. destruct r; reflexivity. Qed.

Lemma mapM_lift_py_int_fails l s :
  Exists (fun p => reads_as_int p = false) l ->
  exists q, In q l /\ reads_as_int q = false /\
            mapM (fun p => lift (py_int (iop_name p))) l s =
            mkOutcome (inl (ValueError_invalid_literal_for_int (iop_name q))) s [].
Proof.
  induction l as [|a l IH]; intros H; [inversion H|].
  destruct (reads_as_int a) eqn:Ea.
  - assert (Hl : Exists (fun p => reads_as_int p = false) l).
    { inversion H as [? ? Hbad | ? ? Hl]; subst; [congruence | exact Hl]. }
    destruct (IH Hl) as [q [Hq [Hbad Hrun]]].
    exists q. split; [right; exact Hq|]. split; [exact Hbad|].
    cbn [mapM]. unfold bind. rewrite lift_outcome, (reads_as_int_true a Ea). simpl.
    rewrite Hrun. reflexivity.
  - exists a. split; [left; reflexivity|]. split; [exact Ea|].
    cbn [mapM]. unfold bind. rewrite lift_outcome, (reads_as_int_false a Ea).
    reflexivity.
Qed.

Lemma create_output_ids_fails s n :
  Exists (fun p => reads_as_int p = false) (filter is_endpoint (io_pointers s)) ->
  exists q, In q (filter is_endpoint (io_pointers s)) /\ reads_as_int q = false /\
            create_output_ids n s =
            mkOutcome (inl (ValueError_invalid_literal_for_int (iop_name q))) s [].
Proof.
  intros Hbad. unfold create_output_ids, bind, get_store. simpl.
  change (filter (fun p => PointerTypeEnum_eqb (pointer_type p) ENDPOINT) (io_pointers s))
    with (filter is_endpoint (io_pointers s)).
  destruct (filter is_endpoint (io_pointers s)) as [|res0 res'] eqn:Eres;
    [inversion Hbad|].
  unfold max_by_int_name.
  destruct (reads_as_int res0) eqn:E0.
  - assert (Hl : Exists (fun p => reads_as_int p = false) res').
    { inversion Hbad as [? ? Hb | ? ? Hl]; subst; [congruence | exact Hl]. }
    destruct (mapM_lift_py_int_fails res' s Hl) as [q [Hq [Hqbad Hrun]]].
    exists q. split; [right; exact Hq|]. split; [exact Hqbad|].
    unfold bind. rewrite lift_outcome, (reads_as_int_true res0 E0). simpl.
    rewrite Hrun. reflexivity.
  - exists res0. split; [left; reflexivity|]. split; [exact E0|].
    unfold bind. rewrite lift_outcome, (reads_as_int_false res0 E0). reflexivity.
Qed.

Lemma endpoints_read_or_not s :
  Forall (fun p => py_int (iop_name p) = inr (int_name p))
         (filter is_endpoint (io_pointers s)) \/
  Exists (fun p => reads_as_int p = false) (filter is_endpoint (io_pointers s)).
Proof.
  induction (filter is_endpoint (io_pointers s)) as [|p l IH].
  - left. constructor.
  - destruct (reads_as_int p) eqn:E.
    + destruct IH as [IH|IH].
      * left. constructor; [apply reads_as_int_true; exact E | exact IH].
      * right. apply Exists_cons_tl. exact IH.
    + right. apply Exists_cons_hd. exact E.
Qed.

Lemma is_endpoint_filter s p :
  In p (filter is_endpoint (io_pointers s)) <->
  In p (io_pointers s) /\ pointer_type p = ENDPOINT.
Proof.
  rewrite filter_In. unfold is_endpoint. rewrite PointerTypeEnum_eqb_eq. reflexivity.
Qed.

Lemma py_range_length a n : List.length (py_range a (a + n)) = Z.to_nat n.
Proof.
  unfold py_range. rewrite length_map, length_seq. f_equal. lia.
Qed.

Lemma py_range_In a b z : In z (py_range a b) -> (a <= z < b)%Z.
Proof.
  unfold py_range. intros H. apply in_map_iff in H. destruct H as [k [<- Hk]].
  apply in_seq in Hk. lia.
Qed.

Lemma py_range_NoDup a b : NoDup (py_range a b).
Proof.
  unfold py_range. generalize (Z.to_nat (b - a)) as n. intros n.
  generalize 0%nat as k0. induction n as [|n IH]; intros k0; simpl; constructor.
  - intros H. apply in_map_iff in H. destruct H as [k [Hk Hin]].
    apply in_seq in Hin. lia.
  - apply IH.
Qed.

Lemma py_str_NoDup l : NoDup l -> NoDup (map py_str l).
Proof.
  induction 1 as [|z l Hz _ IH]; simpl; constructor; [|exact IH].
  intros H. apply in_map_iff in H. destruct H as [z' [Heq Hin]].
  assert (z' = z).
  { pose proof (py_int_py_str z') as H1. rewrite Heq, py_int_py_str in H1. congruence. }
  subst. exact (Hz Hin).
Qed.

(** X17. When [create_output_ids] returns, it returns as many identifiers
    as were asked for -- one when the count is left out, none when the count
    is zero or negative. *)
Theorem create_output_ids_count :
  forall (s : Store) (num_outputs : option Z) (ids : list string),
    result (create_output_ids num_outputs s) = inr ids ->
    List.length ids = Z.to_nat (with_default 1%Z num_outputs).
Proof.
  intros s n ids H.
  destruct (endpoints_read_or_not s) as [Hok|Hbad].
  - destruct (create_output_ids_returns_block s n Hok) as [start [Hrun _]].
    rewrite Hrun in H. simpl in H. injection H as <-.
    rewrite length_map. apply py_range_length.
  - destruct (create_output_ids_fails s n Hbad) as [q [_ [_ Hrun]]].
    rewrite Hrun in H. discriminate.
Qed.

Lemma create_output_ids_count_witness :
  result (create_output_ids None endpoints_0_to_4) = inr ["5"] /\
  List.length ["5"] = Z.to_nat (with_default 1%Z None) /\
  result (create_output_ids (Some (-2)%Z) endpoints_0_to_4) = inr [] /\
  List.length (@nil string) = Z.to_nat (with_default 1%Z (Some (-2)%Z)).
Proof.
  assert (H1 : result (create_output_ids None endpoints_0_to_4) = inr ["5"])
    by reflexivity.
  assert (H2 : result (create_output_ids (Some (-2)%Z) endpoints_0_to_4) = inr [])
    by reflexivity.
  split; [exact H1|]. split.
  - exact (create_output_ids_count endpoints_0_to_4 None ["5"] H1).
  - split; [exact H2|].
    exact (create_output_ids_count endpoints_0_to_4 (Some (-2)%Z) [] H2).
Defined.

Lemma letter_is_no_digit c : is_ascii_letter c = true -> digit_of_ascii c = None.
Proof.
  unfold is_ascii_letter, digit_of_ascii. intros H.
  destruct ((48 <=? nat_of_ascii c)%nat && (nat_of_ascii c <=? 57)%nat) eqn:E;
    [|reflexivity].
  exfalso. apply andb_prop in E. destruct E as [E1 E2].
  apply Nat.leb_le in E1. apply Nat.leb_le in E2.
  apply orb_prop in H. destruct H as [H|H]; apply andb_prop in H; destruct H as [H1 H2];
    apply Nat.leb_le in H1; apply Nat.leb_le in H2; lia.
Qed.

Lemma parse_digits_letter s :
  has_letter s = true -> forall acc, parse_digits s acc = None.
Proof.
  induction s as [|c s IH]; cbn [has_letter parse_digits]; intros H acc; [discriminate|].
  destruct (is_ascii_letter c) eqn:Ec.
  - rewrite (letter_is_no_digit c Ec). reflexivity.
  - simpl in H. destruct (digit_of_ascii c); [apply IH; exact H | reflexivity].
Qed.

Lemma py_int_letter s : has_letter s = true -> exists e, py_int s = inl e.
Proof.
  intros H. unfold py_int. destruct s as [|c rest]; [discriminate|].
  destruct (Ascii.eqb_spec c "-") as [->|_].
  - destruct rest as [|c' rest']; [eexists; reflexivity|].
    assert (Hr : has_letter (String c' rest') = true) by exact H.
    rewrite (parse_digits_letter _ Hr 0%Z). eexists; reflexivity.
  - destruct (Ascii.eqb_spec c "+") as [->|_].
    + destruct rest as [|c' rest']; [eexists; reflexivity|].
      assert (Hr : has_letter (String c' rest') = true) by exact H.
      rewrite (parse_digits_letter _ Hr 0%Z). eexists; reflexivity.
    + rewrite (parse_digits_letter _ H 0%Z). eexists; reflexivity.
Qed.

(** X18. One endpoint pointer with a letter in its name makes
    [create_output_ids] fail for every count: the call ends in the
    [ValueError] of [int] on the name of an endpoint pointer, returns no
    identifier, and leaves the store as it was. *)
Theorem create_output_ids_fails_on_non_numeric_endpoint :
  forall (s : Store) (num_outputs : option Z),
    (exists p, In p (io_pointers s) /\ pointer_type p = ENDPOINT /\
               has_letter (iop_name p) = true) ->
    exists q, In q (io_pointers s) /\ pointer_type q = ENDPOINT /\
              create_output_ids num_outputs s =
              mkOutcome (inl (ValueError_invalid_literal_for_int (iop_name q))) s [].
Proof.
  intros s n [p [Hp [Ht Hl]]].
  destruct (py_int_letter _ Hl) as [e He].
  assert (Hbad : Exists (fun p => reads_as_int p = false)
                        (filter is_endpoint (io_pointers s))).
  { apply Exists_exists. exists p. split.
    - apply is_endpoint_filter. split; assumption.
    - unfold reads_as_int. rewrite He. reflexivity. }
  destruct (create_output_ids_fails s n Hbad) as [q [Hq [_ Hrun]]].
  apply is_endpoint_filter in Hq. destruct Hq as [Hq Hqt].
  exists q. split; [exact Hq|]. split; [exact Hqt | exact Hrun].
Qed.

Lemma create_output_ids_fails_on_non_numeric_endpoint_witness :
  let s := store_with_named_endpoint in
  (exists p, In p (io_pointers s) /\ pointer_type p = ENDPOINT /\
             has_letter (iop_name p) = true) /\
  exists q, In q (io_pointers s) /\ pointer_type q = ENDPOINT /\
            create_output_ids (Some 3%Z) s =
            mkOutcome (inl (ValueError_invalid_literal_for_int (iop_name q))) s [].
Proof.
  intros s.
  assert (H : exists p, In p (io_pointers s) /\ pointer_type p = ENDPOINT /\
                        has_letter (iop_name p) = true).
  { exists (mkIOPointer "latest" ENDPOINT).
    split; [right; right; left; reflexivity|]. split; reflexivity. }
  split; [exact H|].
  exact (create_output_ids_fails_on_non_numeric_endpoint s (Some 3%Z) H).
Defined.

Lemma create_output_ids_fresh s n ids :
  result (create_output_ids n s) = inr ids ->
  NoDup ids /\
  forall p, In p (io_pointers s) -> pointer_type p = ENDPOINT ->
            ~ In (iop_name p) ids.
Proof.
  intros H.
  destruct (endpoints_read_or_not s) as [Hok|Hbad].
  - destruct (create_output_ids_returns_block s n Hok) as [start [Hrun Hbelow]].
    rewrite Hrun in H. simpl in H. injection H as <-. split.
    + apply py_str_NoDup. apply py_range_NoDup.
    + intros p Hp Ht Hin. apply in_map_iff in Hin. destruct Hin as [z [Hz Hin]].
      apply py_range_In in Hin.
      assert (Hpe : In p (filter is_endpoint (io_pointers s)))
        by (apply is_endpoint_filter; split; assumption).
      specialize (Hbelow p Hpe).
      rewrite Forall_forall in Hok. specialize (Hok p Hpe).
      rewrite <- Hz, py_int_py_str in Hok. injection Hok as Hok. lia.
  - destruct (create_output_ids_fails s n Hbad) as [q [_ [_ Hrun]]].
    rewrite Hrun in H. discriminate.
Qed.

(** X19. The identifiers [create_output_ids] returns are new among the
    endpoint pointers and distinct from each other: none of them is the name
    of an endpoint-type pointer of the store, and the list has no repeat. *)
Theorem create_output_ids_fresh_among_endpoints :
  forall (s : Store) (num_outputs : option Z) (ids : list string),
    result (create_output_ids num_outputs s) = inr ids ->
    NoDup ids /\
    forall p, In p (io_pointers s) -> pointer_type p = ENDPOINT ->
              ~ In (iop_name p) ids.
Proof. exact create_output_ids_fresh. Qed.

Lemma create_output_ids_fresh_among_endpoints_witness :
  result (create_output_ids (Some 3%Z) endpoints_0_to_4) = inr ["5"; "6"; "7"] /\
  NoDup ["5"; "6"; "7"] /\
  forall p, In p (io_pointers endpoints_0_to_4) -> pointer_type p = ENDPOINT ->
            ~ In (iop_name p) ["5"; "6"; "7"].
Proof.
  assert (H : result (create_output_ids (Some 3%Z) endpoints_0_to_4) =
              inr ["5"; "6"; "7"]) by reflexivity.
  split; [exact H|].
  exact (create_output_ids_fresh_among_endpoints endpoints_0_to_4 (Some 3%Z)
           ["5"; "6"; "7"] H).
Defined.

(** ** Output identifiers: handing out, registering, handing out again *)

Lemma not_In_filter_nil {A} (key : A -> string) (name : string) (l : list A) :
  ~ In name (map key l) -> filter (fun a => String.eqb (key a) name) l = [].
Proof.
  intros Hno. induction l as [|a l IH]; [reflexivity|]. simpl.
  destruct (String.eqb_spec (key a) name) as [Heq|_].
  - exfalso. apply Hno. left. exact Heq.
  - apply IH. intros H. apply Hno. right. exact H.
Qed.

Lemma get_io_pointer_creates ext s name t :
  ~ In name (map iop_name (io_pointers s)) ->
  get_io_pointer ext name (Some t) s =
  mkOutcome (inr (mkIOPointer name t))
            (mkStore (components s) (tags s) (io_pointers s ++ [mkIOPointer name t])
                     (component_runs s) (next_run_id s))
            [Log_creating_io_pointer name].
Proof.
  intros Hno. unfold get_io_pointer, bind, get_store. simpl.
  rewrite (not_In_filter_nil iop_name name (io_pointers s) Hno). reflexivity.
Qed.

Lemma register_endpoints_appends ext ids :
  forall s,
    NoDup ids ->
    (forall name, In name ids -> ~ In name (map iop_name (io_pointers s))) ->
    io_pointers (store_after (register_endpoints ext ids s)) =
    io_pointers s ++ map (fun name => mkIOPointer name ENDPOINT) ids.
Proof.
  unfold register_endpoints.
  induction ids as [|name ids IH]; intros s Hnd Hnew.
  - simpl. rewrite app_nil_r. reflexivity.
  - inversion Hnd as [|? ? Hname Hnd']; subst.
    pose proof (get_io_pointer_creates ext s name ENDPOINT
                  (Hnew name (or_introl eq_refl))) as Hrun.
    cbn [mapM].
    rewrite (bind_inr _ _ s (mkIOPointer name ENDPOINT)) by (rewrite Hrun; reflexivity).
    cbn [store_after]. rewrite Hrun. cbn [store_after].
    set (s1 := mkStore (components s) (tags s)
                       (io_pointers s ++ [mkIOPointer name ENDPOINT])
                       (component_runs s) (next_run_id s)).
    assert (Hnew1 : forall n, In n ids -> ~ In n (map iop_name (io_pointers s1))).
    { intros n Hn Hin. unfold s1 in Hin. simpl in Hin. rewrite map_app in Hin.
      apply in_app_or in Hin. destruct Hin as [Hin|[<-|[]]].
      - exact (Hnew n (or_intror Hn) Hin).
      - exact (Hname Hn). }
    specialize (IH s1 Hnd' Hnew1).
    destruct (result (mapM (fun n => get_io_pointer ext n (Some ENDPOINT)) ids s1))
      as [e|ps] eqn:Eres.
    + rewrite (bind_inl _ _ s1 e Eres). cbn [store_after].
      rewrite IH. unfold s1. simpl. rewrite <- app_assoc. reflexivity.
    + rewrite (bind_inr _ _ s1 ps Eres). cbn [store_after ret].
      rewrite IH. unfold s1. simpl. rewrite <- app_assoc. reflexivity.
Qed.

(** X20. Identifiers that were handed out and registered are not handed out
    again.  Take the identifiers [create_output_ids] returned, none of them
    the name of a pointer of another type, and register each as an endpoint
    pointer through [get_io_pointer]; then no identifier a later
    [create_output_ids] returns is one of them. *)
Theorem create_output_ids_after_registering :
  forall (ext : string -> PointerTypeEnum) (s : Store)
         (num_outputs num_outputs' : option Z) (ids ids' : list string),
    result (create_output_ids num_outputs s) = inr ids ->
    (forall p, In p (io_pointers s) -> pointer_type p <> ENDPOINT ->
               ~ In (iop_name p) ids) ->
    result (create_output_ids num_outputs'
              (store_after (register_endpoints ext ids s))) = inr ids' ->
    forall name, In name ids -> ~ In name ids'.
Proof.
  intros ext s n n' ids ids' Hids Hother Hids' name Hname Hname'.
  destruct (create_output_ids_fresh s n ids Hids) as [Hnd Hfresh].
  assert (Hnew : forall nm, In nm ids -> ~ In nm (map iop_name (io_pointers s))).
  { intros nm Hnm Hin. apply in_map_iff in Hin. destruct Hin as [p [Hpn Hp]].
    subst nm. destruct (PointerTypeEnum_eq_dec (pointer_type p) ENDPOINT) as [Ht|Ht].
    - exact (Hfresh p Hp Ht Hnm).
    - exact (Hother p Hp Ht Hnm). }
  pose proof (register_endpoints_appends ext ids s Hnd Hnew) as Hreg.
  destruct (create_output_ids_fresh _ n' ids' Hids') as [_ Hfresh'].
  apply (Hfresh' (mkIOPointer name ENDPOINT)); [|reflexivity | exact Hname'].
  rewrite Hreg. apply in_or_app. right.
  apply in_map_iff. exists name. split; [reflexivity | exact Hname].
Qed.

Lemma create_output_ids_after_registering_witness :
  let s := endpoints_0_to_4 in
  let ids := ["5"; "6"; "7"] in
  let ids' := ["8"; "9"] in
  result (create_output_ids (Some 3%Z) s) = inr ids /\
  (forall p, In p (io_pointers s) -> pointer_type p <> ENDPOINT ->
             ~ In (iop_name p) ids) /\
  result (create_output_ids (Some 2%Z)
            (store_after (register_endpoints by_extension ids s))) = inr ids' /\
  forall name, In name ids -> ~ In name ids'.
Proof.
  intros s ids ids'.
  assert (H1 : result (create_output_ids (Some 3%Z) s) = inr ids) by reflexivity.
  assert (H2 : forall p, In p (io_pointers s) -> pointer_type p <> ENDPOINT ->
                         ~ In (iop_name p) ids).
  { intros p Hp Ht _. simpl in Hp.
    destruct Hp as [<-|[<-|[<-|[<-|[<-|[]]]]]]; apply Ht; reflexivity. }
  assert (H3 : result (create_output_ids (Some 2%Z)
                         (store_after (register_endpoints by_extension ids s)))
               = inr ids') by reflexivity.
  split; [exact H1|]. split; [exact H2|]. split; [exact H3|].
  exact (create_output_ids_after_registering by_extension s (Some 3%Z) (Some 2%Z)
           ids ids' H1 H2 H3).
Defined.
